(** * orderedmap/v4: an insertion-ordered map

    Shallow embedding of [v4/orderedmap.go].  The Go struct

      type OrderedMap[K comparable, V any] struct { kv map[K]V; ll *[]K }

    holds two references: a built-in map and a pointer to a slice of keys.
    Every method has a value receiver, so every mutation goes through those
    two references.  The first part of this file passes the CONTENTS of the
    two referenced objects explicitly (record [OrderedMap]); the second part
    ([handle], [heap]) models the references themselves, for [Copy]; the
    third part models Go slices with their backing arrays, for
    [AppendMultiMap].

    A Go run-time panic is the result [None].  Go's [int] is modelled by [Z];
    the only arithmetic on it is [lli + 1] with [-1 <= lli < len], which
    cannot wrap.

    Assumptions of the model:
    - equality on the key type is an equivalence that the map's hashing
      respects ([Countable K]); key types where [==] is not reflexive
      (floating-point NaN) or panics (an interface holding a slice) are
      left out;
    - a map is made by one of the constructors: the zero value of the
      struct, with a nil [kv] and a nil [ll], is a handle that [load]s
      nothing;
    - the consumer of an iterator has effects of its own but does not
      mutate the map it traverses. *)

From stdpp Require Import gmap strings list fin_maps.
From Stdlib Require Import ZArith.

Local Open Scope Z_scope.

(** ** The part of Go's [slices] package and slice built-ins the code uses *)

Module slices.
Section slices.
Context {E : Type}.

(** [for i := range s { if f(s[i]) { return i } }; return -1] *)
Fixpoint IndexFunc_from (i : Z) (s : list E) (f : E → bool) : Z :=
  match s with
  | [] => -1
  | x :: s' => if f x then i else IndexFunc_from (i + 1) s' f
  end.

Definition IndexFunc (s : list E) (f : E → bool) : Z :=
  IndexFunc_from 0 s f.

(** [for i := range s { if v == s[i] { return i } }; return -1] *)
Definition Index `{EqDecision E} (s : list E) (v : E) : Z :=
  IndexFunc_from 0 s (λ x, bool_decide (v = x)).

(** [s[i] = x]: panics unless [0 <= i < len(s)]. *)
Definition store (s : list E) (i : Z) (x : E) : option (list E) :=
  if bool_decide (0 ≤ i < Z.of_nat (length s))
  then Some (<[Z.to_nat i := x]> s)
  else None.

(** [slices.Delete(s, i, j)]: the bounds check [_ = s[i:j:len(s)]] panics
    unless [0 <= i <= j <= len(s)]; the result is [append(s[:i], s[j:]...)]. *)
Definition Delete (s : list E) (i j : Z) : option (list E) :=
  if bool_decide (0 ≤ i ∧ i ≤ j ∧ j ≤ Z.of_nat (length s))
  then Some (take (Z.to_nat i) s ++ drop (Z.to_nat j) s)
  else None.

End slices.

(** A [for ... range] loop over a slice whose body may [return]: the body
    maps the loop state to a new state and a flag, [false] meaning that
    the enclosing function returned. *)
Fixpoint range {E S : Type} (s : list E) (body : E → S → S * bool) (st : S) : S :=
  match s with
  | [] => st
  | x :: s' =>
      let '(st', continue) := body x st in
      if continue then range s' body st' else st'
  end.

(** [slices.Backward(s)]:
    [for i := len(s)-1; i >= 0; i-- { if !yield(i, s[i]) { return } }] *)
Definition Backward {E S : Type} (s : list E)
    (yield : Z → E → S → S * bool) (st : S) : S :=
  range (reverse (imap (λ i x, (Z.of_nat i, x)) s))
        (λ ix, yield ix.1 ix.2) st.
End slices.

(** *** Iterators ([iter.Seq], [iter.Seq2])

    A consumer ([yield]) is a function with side effects returning
    [false] to stop: its effects are a state [S] it transforms. *)

Definition Seq (E : Type) : Type := ∀ S : Type, (E → S → S * bool) → S → S.
Definition Seq2 (A B : Type) : Type := ∀ S : Type, (A → B → S → S * bool) → S → S.

(** ** The map, with the contents of its two references passed explicitly *)

Section OrderedMap.
Context {K : Type} `{Countable K}.
(** [inhabitant] is the zero value of [V]: what [m.kv[key]] evaluates to
    when [key] is missing, written [kv m !!! key]. *)
Context {V : Type} `{Inhabited V}.

Record OrderedMap := mkOrderedMap { kv : gmap K V; ll : list K }.

Definition MakeOrderedMap : OrderedMap := {| kv := ∅; ll := [] |}.

Definition NewOrderedMap : OrderedMap := {| kv := ∅; ll := [] |}.

(** [make([]K, 0, capacity)] panics on a negative capacity; the capacity
    is not observable otherwise. *)
Definition NewOrderedMapWithCapacity (capacity : Z) : option OrderedMap :=
  if bool_decide (0 ≤ capacity) then Some {| kv := ∅; ll := [] |} else None.

Definition Get (m : OrderedMap) (key : K) : V * bool :=
  (kv m !!! key, bool_decide (is_Some (kv m !! key))).

Definition Set_ (m : OrderedMap) (key : K) (value : V) : OrderedMap * bool :=
  let alreadyExist := bool_decide (is_Some (kv m !! key)) in
  let m := {| kv := <[key := value]> (kv m); ll := ll m |} in
  if alreadyExist then (m, false)
  else ({| kv := kv m; ll := ll m ++ [key] |}, true).

Definition ReplaceKey (m : OrderedMap) (originalKey newKey : K)
    : option (OrderedMap * bool) :=
  let element := kv m !!! originalKey in
  let originalExists := bool_decide (is_Some (kv m !! originalKey)) in
  let newKeyExists := bool_decide (is_Some (kv m !! newKey)) in
  if originalExists && negb newKeyExists then
    let kv1 := delete originalKey (kv m) in
    let kv2 := <[newKey := element]> kv1 in
    let lli := slices.IndexFunc (ll m) (λ key, bool_decide (key = originalKey)) in
    ll' ← slices.store (ll m) lli newKey;
    Some ({| kv := kv2; ll := ll' |}, true)
  else Some (m, false).

Definition GetOrDefault (m : OrderedMap) (key : K) (defaultValue : V) : V :=
  match kv m !! key with
  | Some value => value
  | None => defaultValue
  end.

Definition Len (m : OrderedMap) : Z := Z.of_nat (length (ll m)).

Definition Has (m : OrderedMap) (key : K) : bool :=
  bool_decide (is_Some (kv m !! key)).

Definition Delete (m : OrderedMap) (key : K) : option (OrderedMap * bool) :=
  let ok := bool_decide (is_Some (kv m !! key)) in
  if ok then
    let lli := slices.Index (ll m) key in
    ll' ← slices.Delete (ll m) lli (lli + 1);
    Some ({| kv := delete key (kv m); ll := ll' |}, ok)
  else Some (m, ok).

Definition AllFromFront (m : OrderedMap) : Seq2 K V :=
  λ S yield, slices.range (ll m) (λ key, yield key (kv m !!! key)).

Definition All (m : OrderedMap) : Seq2 K V := AllFromFront m.

Definition AllFromBack (m : OrderedMap) : Seq2 K V :=
  λ S yield, slices.Backward (ll m) (λ _ key, yield key (kv m !!! key)).

Definition Keys (m : OrderedMap) : Seq K :=
  λ S yield, slices.range (ll m) (λ key, yield key).

Definition Values (m : OrderedMap) : Seq V :=
  λ S yield, slices.range (ll m) (λ key, yield (kv m !!! key)).

(** [Copy]: [m.Len()] is never negative, the loop has no early exit. *)
Definition Copy (m : OrderedMap) : option OrderedMap :=
  m2 ← NewOrderedMapWithCapacity (Len m);
  Some (foldl (λ m2 key, (Set_ m2 key (kv m !!! key)).1) m2 (ll m)).

(** *** Sequences of mutating calls *)

Inductive op :=
  | OpSet (key : K) (value : V)
  | OpReplaceKey (originalKey newKey : K)
  | OpDelete (key : K).

Definition step (o : op) (m : OrderedMap) : option OrderedMap :=
  match o with
  | OpSet key value => Some (Set_ m key value).1
  | OpReplaceKey originalKey newKey => fst <$> ReplaceKey m originalKey newKey
  | OpDelete key => fst <$> Delete m key
  end.

Definition run (ops : list op) (m : OrderedMap) : option OrderedMap :=
  foldl (λ om o, om ≫= step o) (Some m) ops.

(** The bijection between the ordering slice and the store. *)
Definition wf (m : OrderedMap) : Prop :=
  NoDup (ll m) ∧ ∀ key, key ∈ ll m ↔ is_Some (kv m !! key).

(** Every key of the store occurs in the ordering slice. *)
Definition covered (m : OrderedMap) : Prop :=
  ∀ key, is_Some (kv m !! key) → key ∈ ll m.

(** The two properties, as checks that compute. *)
Definition wfb (m : OrderedMap) : bool :=
  bool_decide (NoDup (ll m)) &&
  bool_decide (list_to_set (ll m) =@{gset K} dom (kv m)).

Definition coveredb (m : OrderedMap) : bool :=
  bool_decide (dom (kv m) ⊆@{gset K} list_to_set (ll m)).
End OrderedMap.

Arguments OrderedMap K {_ _} V.
Arguments op K V : clear implicits.

(** *** Construction from elements *)

Section Elements.
Context {K : Type} `{Countable K} {V : Type} `{Inhabited V}.

(** The declaration of [Element] is not part of [orderedmap.go]; the code
    reads its fields [Key] and [Value]. *)
Record Element := mkElement { Key : K; Value : V }.

(** The arguments are pointers: [None] is a nil pointer, and [el.Key] on
    it panics. *)
Definition NewOrderedMapWithElements (els : list (option Element))
    : option (OrderedMap K V) :=
  om ← NewOrderedMapWithCapacity (Z.of_nat (length els));
  foldl (λ oom el,
           om ← oom;
           el ← el;
           Some (Set_ om (Key el) (Value el)).1)
        (Some om) els.
End Elements.

Arguments Element : clear implicits.

(** *** Observing an iterator *)

(** Consume the whole sequence, recording what is yielded. *)
Definition collect {E} (it : Seq E) : list E :=
  it (list E) (λ x acc, (acc ++ [x], true)) [].

Definition pairs {A B} (it : Seq2 A B) : Seq (A * B) :=
  λ S yield, it S (λ a b, yield (a, b)).

(** A consumer together with a counter of its invocations. *)
Definition counted {E St} (yield : E → St → St * bool) : E → St * nat → (St * nat) * bool :=
  λ x '(st, n), let '(st', continue) := yield x st in ((st', S n), continue).

(** The consumer's state after it was handed the elements [xs] one by one. *)
Definition feed {E St} (yield : E → St → St * bool) (st : St) (xs : list E) : St :=
  foldl (λ st x, (yield x st).1) st xs.

(** On the sequence [xs], the consumer asks for more after each of the
    first [i - 1] elements and stops after the [i]-th. *)
Definition stops_after {E St} (yield : E → St → St * bool) (st : St) (xs : list E) (i : nat) : Prop :=
  (0 < i)%nat ∧
  (∃ x, xs !! pred i = Some x ∧ (yield x (feed yield st (take (pred i) xs))).2 = false) ∧
  (∀ j x, (S j < i)%nat → xs !! j = Some x →
          (yield x (feed yield st (take j xs))).2 = true).

(** On the sequence [xs], the consumer asks for more after every element. *)
Definition never_stops {E St} (yield : E → St → St * bool) (st : St) (xs : list E) : Prop :=
  ∀ j x, xs !! j = Some x → (yield x (feed yield st (take j xs))).2 = true.

(** An iterator that is never stopped calls the consumer once on every
    element, in order. *)
Definition runs_through {E} (it : Seq E) : Prop :=
  ∀ St (yield : E → St → St * bool) (st : St),
    never_stops yield st (collect it) →
    it (St * nat)%type (counted yield) (st, 0%nat)
    = (feed yield st (collect it), length (collect it)).

(** An iterator stopped after its [i]-th element has called the consumer
    [i] times, on the first [i] elements. *)
Definition early_exit {E} (it : Seq E) : Prop :=
  ∀ St (yield : E → St → St * bool) (st : St) (i : nat),
    stops_after yield st (collect it) i →
    it (St * nat)%type (counted yield) (st, 0%nat) = (feed yield st (take i (collect it)), i).

(** ** The references: handles on a heap

    A [handle] is the Go struct value itself: the map reference and the
    pointer to the slice.  Copying the struct copies the two references. *)

Abbreviation loc := positive.

Section Heap.
Context {K : Type} `{Countable K} {V : Type} `{Inhabited V}.

Record handle := mkHandle { kv_ref : loc; ll_ref : loc }.

Record heap := mkHeap { maps : gmap loc (gmap K V); cells : gmap loc (list K) }.

(** Dereferencing; [None] is a nil dereference. *)
Definition load (h : heap) (r : handle) : option (OrderedMap K V) :=
  kvm ← maps h !! kv_ref r;
  lls ← cells h !! ll_ref r;
  Some {| kv := kvm; ll := lls |}.

Definition save (r : handle) (m : OrderedMap K V) (h : heap) : heap :=
  {| maps := <[kv_ref r := kv m]> (maps h);
     cells := <[ll_ref r := ll m]> (cells h) |}.

(** A method call through a handle. *)
Definition call {R} (f : OrderedMap K V → option (OrderedMap K V * R))
    (r : handle) (h : heap) : option (heap * R) :=
  m ← load h r;
  '(m', x) ← f m;
  Some (save r m' h, x).

Definition SetH (r : handle) (key : K) (value : V) : heap → option (heap * bool) :=
  call (λ m, Some (Set_ m key value)) r.

Definition ReplaceKeyH (r : handle) (originalKey newKey : K) : heap → option (heap * bool) :=
  call (λ m, ReplaceKey m originalKey newKey) r.

Definition DeleteH (r : handle) (key : K) : heap → option (heap * bool) :=
  call (λ m, Delete m key) r.

(** [kv: map[K]V{}] and [ll: &ll] are two fresh objects. *)
Definition NewOrderedMapWithCapacityH (capacity : Z) (h : heap) : option (heap * handle) :=
  if bool_decide (0 ≤ capacity) then
    let r := {| kv_ref := fresh (dom (maps h)); ll_ref := fresh (dom (cells h)) |} in
    Some (save r {| kv := ∅; ll := [] |} h, r)
  else None.

(** [Copy]: the range expression [*m.ll] is evaluated once, [m.kv[key]] is
    read in each round. *)
Definition CopyH (r : handle) (h : heap) : option (heap * handle) :=
  m ← load h r;
  '(h1, m2) ← NewOrderedMapWithCapacityH (Len m) h;
  h2 ← foldl (λ oh key,
               h ← oh;
               kvm ← maps h !! kv_ref r;
               fst <$> SetH m2 key (kvm !!! key) h)
             (Some h1) (ll m);
  Some (h2, m2).

(** Two handles that share neither of their two references. *)
Definition separate (r1 r2 : handle) : Prop :=
  kv_ref r1 ≠ kv_ref r2 ∧ ll_ref r1 ≠ ll_ref r2.

Definition stepH (r : handle) (o : op K V) (h : heap) : option heap :=
  match o with
  | OpSet key value => fst <$> SetH r key value h
  | OpReplaceKey originalKey newKey => fst <$> ReplaceKeyH r originalKey newKey h
  | OpDelete key => fst <$> DeleteH r key h
  end.

Definition runH (r : handle) (ops : list (op K V)) (h : heap) : option heap :=
  foldl (λ oh o, oh ≫= stepH r o) (Some h) ops.
End Heap.

Arguments handle : clear implicits.
Arguments heap K {_ _} V.

(** ** Multimaps: values that are Go slices

    A slice value is a window on a backing array; [append] writes into the
    array when there is spare capacity and allocates otherwise. *)

Section MultiMap.
Context {K : Type} `{Countable K} {V : Type} `{Inhabited V}.
(** Spare capacity [append] reserves when it reallocates a slice of the
    given capacity (chosen by the Go run-time). *)
Variable spare : nat → nat.

Record slice := mkSlice { arr : loc; off : nat; len : nat; cap : nat }.

(** The nil slice is the zero value. *)
#[export] Instance slice_inhabited : Inhabited slice :=
  populate {| arr := 1%positive; off := 0; len := 0; cap := 0 |}.

Definition elems (mem : gmap loc (list V)) (s : slice) : list V :=
  take (len s) (drop (off s) (mem !!! arr s)).

Definition append (mem : gmap loc (list V)) (s : slice) (x : V)
    : gmap loc (list V) * slice :=
  if bool_decide (len s < cap s)%nat then
    (<[arr s := <[(off s + len s)%nat := x]> (mem !!! arr s)]> mem,
     {| arr := arr s; off := off s; len := S (len s); cap := cap s |})
  else
    let p := fresh (dom mem) in
    let extra := spare (cap s) in
    (<[p := elems mem s ++ x :: replicate extra inhabitant]> mem,
     {| arr := p; off := 0; len := S (len s); cap := (S (len s) + extra)%nat |}).

(** The composite literal [[]V{value}]. *)
Definition literal1 (mem : gmap loc (list V)) (x : V) : gmap loc (list V) * slice :=
  let p := fresh (dom mem) in
  (<[p := [x]]> mem, {| arr := p; off := 0; len := 1; cap := 1 |}).

Definition AppendMultiMap (mem : gmap loc (list V)) (m : OrderedMap K slice)
    (key : K) (value : V) : gmap loc (list V) * OrderedMap K slice :=
  let '(a, ok) := Get m key in
  if ok then
    let '(mem', a') := append mem a value in
    (mem', (Set_ m key a').1)
  else
    let '(mem', a') := literal1 mem value in
    (mem', (Set_ m key a').1).

(** A slice the program can hold: within its capacity, and its capacity
    within its backing array. *)
Definition valid (mem : gmap loc (list V)) (s : slice) : Prop :=
  (len s ≤ cap s)%nat ∧
  (cap s = 0%nat ∨ ∃ a, mem !! arr s = Some a ∧ (off s + cap s ≤ length a)%nat).
End MultiMap.

Arguments slice : clear implicits.

(** ** Concrete maps, for the examples *)

(** The values of the examples are Go [int]s, whose zero value is 0. *)
#[local] Instance int_zero : Inhabited Z := populate 0.

(** [Set("a", 1); Set("b", 2); Set("c", 3)] on the empty map. *)
Definition abc : OrderedMap string Z :=
  foldl (λ m p, (Set_ m p.1 p.2).1) MakeOrderedMap [("a", 1); ("b", 2); ("c", 3)].

(** A store with a key that the ordering slice lacks: no call produces it. *)
Definition uncovered : OrderedMap string Z :=
  {| kv := {["a" := 1]}; ll := [] |}.

(** A heap with one map, [abc], and a handle on it. *)
Definition r0 : handle := {| kv_ref := 1; ll_ref := 1 |}.
Definition h0 : heap string Z :=
  save r0 abc {| maps := ∅; cells := ∅ |}.

(** A consumer that records the keys it is handed and stops after the
    second. *)
Definition two_keys : string * Z → list string → list string * bool :=
  λ p seen, (seen ++ [p.1], bool_decide (length seen < 1)%nat).

(** A consumer that records the keys it is handed and never stops. *)
Definition all_keys : string * Z → list string → list string * bool :=
  λ p seen, (seen ++ [p.1], true).

(** [append] on a small full slice doubles its capacity. *)
Definition doubling : nat → nat := λ n, (n - 1)%nat.

(** The multimap after [AppendMultiMap(m, "a", 1)], [AppendMultiMap(m, "a", 2)]
    and [AppendMultiMap(m, "a", 3)] on the empty one, with the backing
    arrays: the slice under "a" has length 3 and capacity 4. *)
Definition mm123 : gmap loc (list Z) * OrderedMap string slice :=
  foldl (λ r p, AppendMultiMap doubling r.1 r.2 p.1 p.2)
        (∅, MakeOrderedMap) [("a", 1); ("a", 2); ("a", 3)].

(** * Properties *)

(** ** Slices and loops *)

Section slices_facts.
Context {E : Type}.
Implicit Types (s : list E) (f : E → bool).

(** The scan returns the index of the first element satisfying [f], or -1. *)
Lemma IndexFunc_from_split s f i :
  (∃ pre x post, s = pre ++ x :: post ∧ Forall (λ y, f y = false) pre ∧
     f x = true ∧ slices.IndexFunc_from i s f = i + Z.of_nat (length pre)) ∨
  (Forall (λ y, f y = false) s ∧ slices.IndexFunc_from i s f = -1).
Proof.
  revert i. induction s as [|x s IH]; intros i; simpl.
  - right. split; [constructor | done].
  - destruct (f x) eqn:Hx.
    + left. exists [], x, s. simpl. repeat split; [constructor | done | lia].
    + destruct (IH (i + 1)) as [(pre & y & post & -> & Hpre & Hy & ->) | [Hall ->]].
      * left. exists (x :: pre), y, post. simpl.
        repeat split; [by constructor | done | lia].
      * right. split; [by constructor | done].
Qed.

Lemma store_middle (pre : list E) x post y :
  slices.store (pre ++ x :: post) (Z.of_nat (length pre)) y = Some (pre ++ y :: post).
Proof.
  unfold slices.store. rewrite bool_decide_eq_true_2.
  - rewrite Nat2Z.id. f_equal.
    replace (length pre) with (length pre + 0)%nat at 1 by lia.
    by rewrite insert_app_r.
  - rewrite length_app. simpl. lia.
Qed.

Lemma Delete_middle (pre : list E) x post :
  slices.Delete (pre ++ x :: post) (Z.of_nat (length pre)) (Z.of_nat (length pre) + 1)
  = Some (pre ++ post).
Proof.
  unfold slices.Delete. rewrite bool_decide_eq_true_2.
  - replace (Z.of_nat (length pre) + 1) with (Z.of_nat (S (length pre))) by lia.
    rewrite !Nat2Z.id. f_equal.
    rewrite take_app_length.
    rewrite (cons_middle x pre post), (assoc_L (++)).
    replace (S (length pre)) with (length (pre ++ [x]))
      by (rewrite length_app; simpl; lia).
    by rewrite drop_app_length.
  - rewrite length_app. simpl. lia.
Qed.

Lemma range_fmap {A St} (g : A → E) (l : list A) (body : E → St → St * bool) st :
  slices.range (g <$> l) body st = slices.range l (λ x, body (g x)) st.
Proof.
  revert st. induction l as [|x l IH]; intros st; simpl; [done|].
  destruct (body (g x) st) as [st' []]; [apply IH | done].
Qed.

Lemma range_collect s (acc : list E) :
  slices.range s (λ x acc, (acc ++ [x], true)) acc = acc ++ s.
Proof.
  revert acc. induction s as [|x s IH]; intros acc; simpl.
  - by rewrite app_nil_r.
  - rewrite IH. by rewrite (cons_middle x acc s), (assoc_L (++)).
Qed.

(** A loop over [slices.Backward] that ignores the index visits the slice
    from its last element to its first. *)
Lemma Backward_range {St} s (body : E → St → St * bool) st :
  slices.Backward s (λ _ x, body x) st = slices.range (reverse s) body st.
Proof.
  unfold slices.Backward.
  rewrite <- (range_fmap snd _ body).
  rewrite fmap_reverse. do 2 f_equal.
  assert (∀ g : nat → Z, (imap (λ i x, (g i, x)) s).*2 = s) as Hsnd.
  { induction s as [|x s IH]; intros g; simpl; [done|].
    f_equal. apply (IH (g ∘ S)). }
  apply (Hsnd Z.of_nat).
Qed.

(** An early exit: the body runs on the first [i] elements only. *)
Lemma range_counted {St} s (yield : E → St → St * bool) st n i :
  stops_after yield st s i →
  slices.range s (counted yield) (st, n) = (feed yield st (take i s), (n + i)%nat).
Proof.
  revert st n i. induction s as [|x s IH]; intros st n i (Hi & (y & Hy & Hstop) & Hgo).
  - by rewrite lookup_nil in Hy.
  - destruct i as [|[|i]]; [lia | |].
    + simpl in *. injection Hy as <-. unfold feed in Hstop. simpl in Hstop.
      destruct (yield x st) as [st' c]. simpl in *. subst c.
      f_equal. lia.
    + specialize (Hgo 0%nat x ltac:(lia) eq_refl) as Hx. simpl in Hx.
      change (slices.range (x :: s) (counted yield) (st, n))
        with (let '(st', c) := counted yield x (st, n) in
              if c then slices.range s (counted yield) st' else st').
      unfold counted at 1. unfold feed in Hx. simpl in Hx.
      destruct (yield x st) as [st' c] eqn:Hyx. simpl in Hx. subst c.
      rewrite (IH st' (S n) (S i)).
      * unfold feed. simpl. rewrite Hyx. simpl. f_equal. lia.
      * split; [lia|]. split.
        -- exists y. split; [exact Hy|].
           simpl in Hstop. unfold feed in *. simpl in Hstop. by rewrite Hyx in Hstop.
        -- intros j z Hj Hz. specialize (Hgo (S j) z ltac:(lia) Hz).
           unfold feed in *. simpl in Hgo. by rewrite Hyx in Hgo.
Qed.

Lemma early_exit_range {A} (g : A → E) (l : list A) :
  early_exit (λ St yield, slices.range l (λ x, yield (g x))).
Proof.
  intros St yield st i. unfold collect.
  rewrite <- (range_fmap g l (λ x acc, (acc ++ [x], true))), range_collect.
  rewrite <- (range_fmap g l (counted yield)). simpl.
  intros Hstop. by rewrite (range_counted _ _ _ 0%nat i Hstop).
Qed.
End slices_facts.

(** ** The map *)

Section OrderedMap_facts.
Context {K : Type} `{Countable K} {V : Type} `{Inhabited V}.
Implicit Types (m : OrderedMap K V) (key : K) (value : V).

Lemma Has_true m key : Has m key = true ↔ is_Some (kv m !! key).
Proof. unfold Has. by rewrite bool_decide_eq_true. Qed.

Lemma Has_false m key : Has m key = false ↔ kv m !! key = None.
Proof. unfold Has. by rewrite bool_decide_eq_false, eq_None_not_Some. Qed.

(** What the iterators yield when consumed to the end. *)
Lemma collect_AllFromFront m :
  collect (pairs (AllFromFront m)) = (λ key, (key, kv m !!! key)) <$> ll m.
Proof.
  unfold collect, pairs, AllFromFront.
  by rewrite <- (range_fmap (λ key, (key, kv m !!! key)) (ll m)
                   (λ x acc, (acc ++ [x], true))), range_collect.
Qed.

Lemma collect_AllFromBack m :
  collect (pairs (AllFromBack m)) = reverse ((λ key, (key, kv m !!! key)) <$> ll m).
Proof.
  unfold collect, pairs, AllFromBack.
  rewrite (Backward_range (ll m) (λ key acc, (acc ++ [(key, kv m !!! key)], true))).
  rewrite <- (range_fmap (λ key, (key, kv m !!! key)) (reverse (ll m))
                (λ x acc, (acc ++ [x], true))), range_collect.
  by rewrite fmap_reverse.
Qed.

Lemma collect_Keys m : collect (Keys m) = ll m.
Proof. unfold collect, Keys. apply (range_collect (ll m) []). Qed.

Lemma collect_Values m : collect (Values m) = (λ key, kv m !!! key) <$> ll m.
Proof.
  unfold collect, Values.
  by rewrite <- (range_fmap (λ key, kv m !!! key) (ll m)
                   (λ x acc, (acc ++ [x], true))), range_collect.
Qed.

(** Both scans stop at the first occurrence of a key that occurs. *)
Lemma scan_split (l : list K) key :
  key ∈ l →
  ∃ pre post, l = pre ++ key :: post ∧ (key ∉ pre) ∧
    slices.IndexFunc l (λ k, bool_decide (k = key)) = Z.of_nat (length pre) ∧
    slices.Index l key = Z.of_nat (length pre).
Proof.
  intros Hin. unfold slices.IndexFunc, slices.Index.
  assert (∀ f : K → bool, (∀ k, f k = true ↔ k = key) →
            ∃ pre post, l = pre ++ key :: post ∧ (key ∉ pre) ∧
              slices.IndexFunc_from 0 l f = Z.of_nat (length pre)) as Hscan.
  { intros f Hf.
    destruct (IndexFunc_from_split l f 0)
      as [(pre & x & post & -> & Hpre & Hx & ->) | [Hall _]].
    - apply Hf in Hx as ->. exists pre, post. split_and!; [done| |lia].
      intros Hk. rewrite Forall_forall in Hpre. apply Hpre in Hk.
      assert (f key = true) by (by apply Hf). congruence.
    - rewrite Forall_forall in Hall. apply Hall in Hin.
      assert (f key = true) by (by apply Hf). congruence. }
  destruct (Hscan (λ k, bool_decide (k = key))) as (pre & post & -> & Hpre & Hi).
  { intros k. by rewrite bool_decide_eq_true. }
  destruct (Hscan (λ k, bool_decide (key = k))) as (pre' & post' & Heq & Hpre' & Hi').
  { intros k. rewrite bool_decide_eq_true. naive_solver. }
  exists pre, post. split_and!; [done..|].
  rewrite Hi'. f_equal.
  destruct (decide (length pre' = length pre)) as [|Hne]; [done|].
  exfalso.
  assert ((pre ++ key :: post) !! length pre = Some key) as H1
    by (by rewrite list_lookup_middle).
  assert ((pre' ++ key :: post') !! length pre' = Some key) as H2
    by (by rewrite list_lookup_middle).
  destruct (decide (length pre' < length pre)%nat).
  - rewrite <- Heq in H2. rewrite lookup_app_l in H2 by done.
    apply Hpre. by eapply list_elem_of_lookup_2.
  - rewrite Heq in H1. rewrite lookup_app_l in H1 by lia.
    apply Hpre'. by eapply list_elem_of_lookup_2.
Qed.

Lemma ReplaceKey_rejects m originalKey newKey :
  Has m originalKey = false ∨ Has m newKey = true →
  ReplaceKey m originalKey newKey = Some (m, false).
Proof.
  unfold ReplaceKey, Has. intros [-> | ->]; [done|].
  by rewrite andb_false_r.
Qed.

Lemma ReplaceKey_accepts m originalKey newKey :
  covered m → Has m originalKey = true → Has m newKey = false →
  ∃ pre post, ll m = pre ++ originalKey :: post ∧ (originalKey ∉ pre) ∧
    slices.IndexFunc (ll m) (λ k, bool_decide (k = originalKey)) = Z.of_nat (length pre) ∧
    ReplaceKey m originalKey newKey =
      Some ({| kv := <[newKey := kv m !!! originalKey]> (delete originalKey (kv m));
               ll := pre ++ newKey :: post |}, true).
Proof.
  intros Hcov Hold Hnew.
  destruct (scan_split (ll m) originalKey) as (pre & post & Hll & Hpre & Hi & _).
  { apply Hcov. by apply Has_true. }
  exists pre, post. split_and!; [done..|].
  unfold ReplaceKey. unfold Has in Hold, Hnew. rewrite Hold, Hnew. simpl.
  rewrite Hi, Hll, store_middle. done.
Qed.

Lemma Delete_absent m key : Has m key = false → Delete m key = Some (m, false).
Proof. unfold Delete, Has. by intros ->. Qed.

Lemma Delete_present m key :
  covered m → Has m key = true →
  ∃ pre post, ll m = pre ++ key :: post ∧ (key ∉ pre) ∧
    slices.Index (ll m) key = Z.of_nat (length pre) ∧
    Delete m key = Some ({| kv := delete key (kv m); ll := pre ++ post |}, true).
Proof.
  intros Hcov Hkey.
  destruct (scan_split (ll m) key) as (pre & post & Hll & Hpre & _ & Hi).
  { apply Hcov. by apply Has_true. }
  exists pre, post. split_and!; [done..|].
  unfold Delete. unfold Has in Hkey. rewrite Hkey. simpl.
  rewrite Hi, Hll, Delete_middle. done.
Qed.

Lemma wfb_wf m : wfb m = true → wf m.
Proof.
  unfold wfb. rewrite andb_true_iff, !bool_decide_eq_true.
  intros [Hnd Hdom]. split; [done|]. intros key.
  by rewrite <- elem_of_dom, <- Hdom, elem_of_list_to_set.
Qed.

Lemma coveredb_covered m : coveredb m = true → covered m.
Proof.
  unfold coveredb. rewrite bool_decide_eq_true.
  intros Hdom key Hkey. apply elem_of_dom, Hdom in Hkey.
  by apply elem_of_list_to_set in Hkey.
Qed.

Lemma wf_covered m : wf m → covered m.
Proof. intros [_ Hbij] key. apply Hbij. Qed.

Lemma wf_empty : wf (MakeOrderedMap (K:=K) (V:=V)).
Proof.
  split; [constructor|]. intros key. simpl.
  rewrite lookup_empty, elem_of_nil. split; [done | by intros [? ?]].
Qed.

Lemma Set_wf m key value : wf m → wf (Set_ m key value).1.
Proof.
  intros [Hnd Hbij]. unfold Set_.
  destruct (bool_decide (is_Some (kv m !! key))) eqn:Hk; simpl.
  - apply bool_decide_eq_true in Hk.
    split; [done|]. intros k. simpl. rewrite Hbij, lookup_insert_is_Some.
    destruct (decide (key = k)) as [<-|]; naive_solver.
  - apply bool_decide_eq_false in Hk.
    split; simpl.
    + apply NoDup_app. split_and!; [done | | apply NoDup_singleton].
      intros k Hin ->%list_elem_of_singleton. by apply Hk, Hbij.
    + intros k. rewrite elem_of_app, list_elem_of_singleton, Hbij, lookup_insert_is_Some.
      destruct (decide (key = k)) as [<-|]; naive_solver.
Qed.

Lemma ReplaceKey_wf m originalKey newKey m' b :
  wf m → ReplaceKey m originalKey newKey = Some (m', b) → wf m'.
Proof.
  intros Hwf Hr.
  destruct (Has m originalKey) eqn:Hold; [destruct (Has m newKey) eqn:Hnew|].
  - rewrite ReplaceKey_rejects in Hr by auto. by simplify_eq.
  - destruct (ReplaceKey_accepts m originalKey newKey)
      as (pre & post & Hll & Hpre & _ & Heq); [by apply wf_covered | done..|].
    rewrite Heq in Hr. simplify_eq.
    destruct Hwf as [Hnd Hbij]. rewrite Hll in Hnd, Hbij.
    apply Has_false in Hnew.
    assert (newKey ∉ pre ++ originalKey :: post) as Hfresh.
    { rewrite Hbij, Hnew. by intros [? ?]. }
    apply NoDup_app in Hnd as (Hnd1 & Hdisj & Hnd2).
    apply NoDup_cons in Hnd2 as [Hnotin Hnd2].
    rewrite elem_of_app, elem_of_cons in Hfresh.
    split; simpl.
    + apply NoDup_app. split_and!; [done | | apply NoDup_cons; naive_solver].
      intros k Hk [->|Hk']%elem_of_cons; [naive_solver|].
      apply (Hdisj k Hk). by right.
    + intros k. rewrite lookup_insert_is_Some, lookup_delete_is_Some.
      rewrite <- Hbij, !elem_of_app, !elem_of_cons.
      destruct (decide (newKey = k)) as [<-|]; [naive_solver|].
      destruct (decide (originalKey = k)) as [<-|]; [|naive_solver].
      split; [|naive_solver].
      intros [Hk | [? | Hk]]; [|done|done].
      exfalso. apply (Hdisj _ Hk). by left.
  - rewrite ReplaceKey_rejects in Hr by auto. by simplify_eq.
Qed.

Lemma Delete_wf m key m' b : wf m → Delete m key = Some (m', b) → wf m'.
Proof.
  intros Hwf Hd.
  destruct (Has m key) eqn:Hkey.
  - destruct (Delete_present m key) as (pre & post & Hll & Hpre & _ & Heq);
      [by apply wf_covered | done |].
    rewrite Heq in Hd. simplify_eq.
    destruct Hwf as [Hnd Hbij]. rewrite Hll in Hnd, Hbij.
    apply NoDup_app in Hnd as (Hnd1 & Hdisj & Hnd2).
    apply NoDup_cons in Hnd2 as [Hnotin Hnd2].
    split; simpl.
    + apply NoDup_app. split_and!; [done | | done].
      intros k Hk Hk'. apply (Hdisj k Hk). by right.
    + intros k. rewrite lookup_delete_is_Some, <- Hbij, !elem_of_app, !elem_of_cons.
      destruct (decide (key = k)) as [<-|]; naive_solver.
  - rewrite Delete_absent in Hd by done. by simplify_eq.
Qed.

(** On a map in bijection no mutating call panics, and the bijection is kept. *)
Lemma step_wf m o : wf m → ∃ m', step o m = Some m' ∧ wf m'.
Proof.
  intros Hwf. destruct o as [key value | originalKey newKey | key]; simpl.
  - eexists. split; [done|]. by apply Set_wf.
  - destruct (Has m originalKey) eqn:Hold; [destruct (Has m newKey) eqn:Hnew|].
    + rewrite ReplaceKey_rejects by auto. by exists m.
    + destruct (ReplaceKey_accepts m originalKey newKey)
        as (pre & post & _ & _ & _ & Heq); [by apply wf_covered | done..|].
      rewrite Heq. eexists. split; [done|]. by eapply ReplaceKey_wf.
    + rewrite ReplaceKey_rejects by auto. by exists m.
  - destruct (Has m key) eqn:Hkey.
    + destruct (Delete_present m key) as (pre & post & _ & _ & _ & Heq);
        [by apply wf_covered | done |].
      rewrite Heq. eexists. split; [done|]. by eapply Delete_wf.
    + rewrite Delete_absent by done. by exists m.
Qed.

Lemma run_snoc (ops : list (op K V)) o m : run (ops ++ [o]) m = run ops m ≫= step o.
Proof. unfold run. by rewrite foldl_app. Qed.

Lemma run_wf (ops : list (op K V)) m : wf m → ∃ m', run ops m = Some m' ∧ wf m'.
Proof.
  intros Hwf. induction ops as [|o ops IH] using rev_ind.
  - by exists m.
  - destruct IH as (m1 & Hrun & Hwf1).
    destruct (step_wf m1 o Hwf1) as (m' & Hstep & Hwf').
    exists m'. split; [|done]. by rewrite run_snoc, Hrun.
Qed.

(** Every map the calls produce from the empty map is in bijection. *)
Lemma reachable_wf (ops : list (op K V)) m : run ops MakeOrderedMap = Some m → wf m.
Proof.
  intros Hrun. destruct (run_wf ops MakeOrderedMap wf_empty) as (m' & Hrun' & Hwf).
  by simplify_eq.
Qed.

Lemma wf_length m : wf m → length (ll m) = size (kv m).
Proof.
  intros [Hnd Hbij].
  rewrite <- size_dom, <- (size_list_to_set (C:=gset K) (ll m)) by done.
  f_equal. apply set_eq. intros key.
  by rewrite elem_of_list_to_set, elem_of_dom.
Qed.
End OrderedMap_facts.

(** ** Claims about the map *)

Section OrderedMap_claims.
Context {K : Type} `{Countable K} {V : Type} `{Inhabited V}.
Implicit Types (m : OrderedMap K V) (key : K) (value : V).

Lemma filter_all {A} (P : A → Prop) `{∀ x, Decision (P x)} (l : list A) :
  Forall P l → filter P l = l.
Proof.
  induction 1 as [|x l Hx _ IH]; [done|].
  by rewrite filter_cons_True, IH.
Qed.

(** The pairs yielded for a run of keys do not depend on what the store
    holds for other keys. *)
Lemma pairs_ext (kv1 kv2 : gmap K V) (l : list K) :
  (∀ key, key ∈ l → kv1 !! key = kv2 !! key) →
  (λ key, (key, kv1 !!! key)) <$> l = (λ key, (key, kv2 !!! key)) <$> l.
Proof.
  intros Heq. apply list_fmap_ext. intros i key Hkey.
  rewrite !lookup_total_alt, Heq; [done|]. by eapply list_elem_of_lookup_2.
Qed.

(** C1: every map reached from the empty map by calls of Set, Delete and
    ReplaceKey exists (no call panics), its ordering slice has no
    duplicates and holds exactly the keys of the store (the keys for which
    Has answers true, which are the keys a front traversal yields), and
    the length of the ordering slice is the size of the store and the
    value of Len. *)
Theorem reachable_bijection (ops : list (op K V)) :
  ∃ m, run ops MakeOrderedMap = Some m ∧
    NoDup (ll m) ∧
    (∀ key, key ∈ ll m ↔ is_Some (kv m !! key)) ∧
    NoDup (collect (Keys m)) ∧
    (∀ key, key ∈ collect (Keys m) ↔ Has m key = true) ∧
    length (ll m) = size (kv m) ∧
    Len m = Z.of_nat (size (kv m)).
Proof.
  destruct (run_wf ops MakeOrderedMap wf_empty) as (m & Hrun & Hwf).
  exists m. pose proof (wf_length m Hwf) as Hlen.
  destruct Hwf as [Hnd Hbij].
  rewrite collect_Keys. unfold Len. rewrite Hlen.
  split_and!; try done.
  intros key. by rewrite Has_true.
Qed.

(** C2: Set of a key that is not in the map stores the value, appends the
    key to the ordering slice and returns true; Set of a key that is in the
    map stores the value, leaves the ordering slice as it is (so a front
    traversal yields the keys at their positions) and returns false,
    whatever the value; in both cases Get then returns the value. *)
Theorem Set_new_or_overwrite m key value :
  (Has m key = false →
     Set_ m key value =
       ({| kv := <[key := value]> (kv m); ll := ll m ++ [key] |}, true)) ∧
  (Has m key = true →
     Set_ m key value = ({| kv := <[key := value]> (kv m); ll := ll m |}, false) ∧
     collect (Keys (Set_ m key value).1) = collect (Keys m)) ∧
  Get (Set_ m key value).1 key = (value, true).
Proof.
  unfold Has, Set_. split_and!.
  - by intros ->.
  - intros ->. by rewrite !collect_Keys.
  - unfold Get. destruct (bool_decide (is_Some (kv m !! key))); simpl;
      rewrite lookup_total_insert_eq, lookup_insert_eq;
      by rewrite bool_decide_eq_true_2.
Qed.

(** C3: when the original key is not in the map, or the new key is, ReplaceKey
    returns false and the map is the one it was. *)
Theorem ReplaceKey_rejected m originalKey newKey :
  Has m originalKey = false ∨ Has m newKey = true →
  ReplaceKey m originalKey newKey = Some (m, false).
Proof. apply ReplaceKey_rejects. Qed.

(** C4: on a map in bijection that holds the original key and not the new
    one, ReplaceKey returns true; afterwards the original key is gone, the
    new key has the value the original one had and stands at the position
    [i] of the original one, both in the ordering slice and in a front
    traversal, and every other key has its value and position. *)
Theorem ReplaceKey_renames m originalKey newKey :
  wf m → Has m originalKey = true → Has m newKey = false →
  ∃ m' (i : nat),
    ReplaceKey m originalKey newKey = Some (m', true) ∧
    Has m' originalKey = false ∧
    Get m' newKey = ((Get m originalKey).1, true) ∧
    ll m !! i = Some originalKey ∧
    ll m' = <[i := newKey]> (ll m) ∧
    (∀ key, key ≠ originalKey → key ≠ newKey → kv m' !! key = kv m !! key) ∧
    collect (pairs (AllFromFront m')) =
      <[i := (newKey, (Get m originalKey).1)]> (collect (pairs (AllFromFront m))).
Proof.
  intros Hwf Hold Hnew.
  destruct (ReplaceKey_accepts m originalKey newKey)
    as (pre & post & Hll & Hpre & _ & Heq); [by apply wf_covered | done..|].
  eexists _, (length pre). split; [exact Heq|].
  assert (originalKey ≠ newKey) as Hne by (intros ->; congruence).
  assert (∀ l, <[length pre := newKey]> (pre ++ originalKey :: l) = pre ++ newKey :: l)
    as Hins.
  { intros l. replace (length pre) with (length pre + 0)%nat at 1 by lia.
    by rewrite insert_app_r. }
  split_and!; simpl.
  - apply Has_false. simpl. by rewrite lookup_insert_ne, lookup_delete_eq.
  - unfold Get. simpl.
    by rewrite lookup_total_insert_eq, lookup_insert_eq, bool_decide_eq_true_2.
  - by rewrite Hll, list_lookup_middle.
  - by rewrite Hll, Hins.
  - intros key Hk1 Hk2. by rewrite lookup_insert_ne, lookup_delete_ne.
  - rewrite !collect_AllFromFront. simpl. rewrite Hll.
    destruct Hwf as [Hnd Hbij]. rewrite Hll in Hnd, Hbij.
    apply Has_false in Hnew.
    assert (newKey ∉ pre ++ originalKey :: post) as Hfresh.
    { rewrite Hbij, Hnew. by intros [? ?]. }
    apply NoDup_app in Hnd as (_ & Hdisj & [Hnotin _]%NoDup_cons).
    rewrite not_elem_of_app, not_elem_of_cons in Hfresh.
    rewrite !fmap_app, !fmap_cons. rewrite lookup_total_insert_eq.
    replace (length pre) with (length ((λ key, (key, kv m !!! key)) <$> pre) + 0)%nat
      by (rewrite length_fmap; lia).
    rewrite insert_app_r. simpl.
    f_equal; [|f_equal]; apply pairs_ext; intros key Hkey;
      rewrite lookup_insert_ne, lookup_delete_ne; naive_solver.
Qed.

(** C5: on a map in bijection, Delete of a key that is in the map returns
    true, after which Has answers false for the key and the front and the
    back traversal yield what they yielded before without the key's pair,
    in the same order; Delete of a key that is not in the map returns false
    and the map is the one it was. *)
Theorem Delete_present_or_absent m key :
  wf m →
  (Has m key = true →
   ∃ m', Delete m key = Some (m', true) ∧
     Has m' key = false ∧
     collect (pairs (AllFromFront m')) =
       filter (λ p, p.1 ≠ key) (collect (pairs (AllFromFront m))) ∧
     collect (pairs (AllFromBack m')) =
       filter (λ p, p.1 ≠ key) (collect (pairs (AllFromBack m))) ∧
     key ∉ (collect (pairs (AllFromFront m'))).*1 ∧
     key ∉ (collect (pairs (AllFromBack m'))).*1) ∧
  (Has m key = false → Delete m key = Some (m, false)).
Proof.
  intros Hwf. split; [|apply Delete_absent].
  intros Hkey.
  destruct (Delete_present m key) as (pre & post & Hll & Hpre & _ & Heq);
    [by apply wf_covered | done |].
  eexists. split; [exact Heq|].
  destruct Hwf as [Hnd Hbij]. rewrite Hll in Hnd.
  apply NoDup_app in Hnd as (_ & Hdisj & [Hnotin _]%NoDup_cons).
  assert (collect (pairs (AllFromFront
            {| kv := delete key (kv m); ll := pre ++ post |})) =
          filter (λ p, p.1 ≠ key) (collect (pairs (AllFromFront m)))) as Hfront.
  { rewrite !collect_AllFromFront. simpl. rewrite Hll.
    rewrite !fmap_app, fmap_cons, filter_app, filter_cons_False by naive_solver.
    rewrite !filter_all.
    - f_equal; apply pairs_ext; intros k Hk; rewrite lookup_delete_ne; naive_solver.
    - apply Forall_fmap, Forall_forall. intros k Hk. simpl. naive_solver.
    - apply Forall_fmap, Forall_forall. intros k Hk. simpl. naive_solver. }
  assert (∀ m1, collect (pairs (AllFromBack m1)) =
                reverse (collect (pairs (AllFromFront m1)))) as Hback.
  { intros m1. by rewrite collect_AllFromBack, collect_AllFromFront. }
  assert (key ∉ (collect (pairs (AllFromFront
            {| kv := delete key (kv m); ll := pre ++ post |}))).*1) as Hgone.
  { rewrite collect_AllFromFront. simpl. rewrite <- list_fmap_compose.
    rewrite (list_fmap_ext _ id _ (λ _ _ _, eq_refl)), list_fmap_id.
    rewrite not_elem_of_app. naive_solver. }
  split_and!.
  - apply Has_false. simpl. by rewrite lookup_delete_eq.
  - exact Hfront.
  - by rewrite !Hback, Hfront, filter_reverse.
  - exact Hgone.
  - by rewrite Hback, fmap_reverse, elem_of_reverse.
Qed.

(** C6: a back traversal yields the reverse of what a front traversal
    yields; and after Set of the pairs of a list with distinct keys on the
    empty map, AllFromFront and All yield these pairs in the order of the
    list and AllFromBack yields them in the reverse order. *)
Theorem traversal_order :
  (∀ m, collect (pairs (AllFromBack m)) = reverse (collect (pairs (AllFromFront m)))) ∧
  (∀ (kvs : list (K * V)),
     NoDup kvs.*1 →
     let m := foldl (λ m p, (Set_ m p.1 p.2).1) MakeOrderedMap kvs in
     collect (pairs (AllFromFront m)) = kvs ∧
     collect (pairs (All m)) = kvs ∧
     collect (pairs (AllFromBack m)) = reverse kvs).
Proof.
  assert (∀ m, collect (pairs (AllFromBack m)) =
               reverse (collect (pairs (AllFromFront m)))) as Hback.
  { intros m. by rewrite collect_AllFromBack, collect_AllFromFront. }
  split; [exact Hback|].
  intros kvs Hnd m.
  assert (collect (pairs (AllFromFront m)) = kvs ∧ ∀ key, is_Some (kv m !! key) → key ∈ kvs.*1)
    as [Hfront _].
  { subst m. induction kvs as [|[key value] kvs IH] using rev_ind.
    - split; [done|]. simpl. intros key. rewrite lookup_empty. by intros [? ?].
    - rewrite fmap_app in Hnd. apply NoDup_app in Hnd as (Hnd & Hdisj & _).
      destruct (IH Hnd) as [IHfront IHdom].
      rewrite foldl_app. simpl.
      set (m := foldl (λ m p, (Set_ m p.1 p.2).1) MakeOrderedMap kvs) in *.
      assert (kv m !! key = None) as Hnone.
      { apply eq_None_not_Some. intros Hk. apply (Hdisj key (IHdom key Hk)).
        simpl. apply list_elem_of_singleton. done. }
      unfold Set_. rewrite bool_decide_eq_false_2 by (rewrite Hnone; by intros [? ?]).
      simpl. split.
      + rewrite collect_AllFromFront. simpl.
        rewrite fmap_app. simpl. rewrite lookup_total_insert_eq.
        f_equal. rewrite <- IHfront, collect_AllFromFront.
        apply pairs_ext. intros k Hk. rewrite lookup_insert_ne; [done|].
        intros <-. rewrite collect_AllFromFront in IHfront.
        apply (Hdisj key); [|simpl; by apply list_elem_of_singleton].
        rewrite <- IHfront, <- list_fmap_compose.
        by rewrite (list_fmap_ext _ id _ (λ _ _ _, eq_refl)), list_fmap_id.
      + intros k. rewrite lookup_insert_is_Some, fmap_app, elem_of_app. simpl.
        rewrite list_elem_of_singleton. naive_solver. }
  split_and!; [done | done |]. by rewrite Hback, Hfront.
Qed.

(** C8: each of AllFromFront, AllFromBack, All, Keys and Values, handed a
    consumer that stops after the [i]-th element, calls the consumer [i]
    times, on the first [i] elements of the sequence and on nothing else:
    the consumer's effects are those of these [i] calls. *)
Theorem iterators_early_exit m :
  early_exit (pairs (AllFromFront m)) ∧
  early_exit (pairs (AllFromBack m)) ∧
  early_exit (pairs (All m)) ∧
  early_exit (Keys m) ∧
  early_exit (Values m).
Proof.
  split_and!.
  - apply (early_exit_range (λ key, (key, kv m !!! key)) (ll m)).
  - intros St yield st i. unfold collect, pairs, AllFromBack.
    rewrite (Backward_range (ll m) (λ key, counted yield (key, kv m !!! key))).
    rewrite (Backward_range (ll m) (λ key acc, (acc ++ [(key, kv m !!! key)], true))).
    apply (early_exit_range (λ key, (key, kv m !!! key)) (reverse (ll m))).
  - apply (early_exit_range (λ key, (key, kv m !!! key)) (ll m)).
  - apply (early_exit_range (λ key, key) (ll m)).
  - apply (early_exit_range (λ key, kv m !!! key) (ll m)).
Qed.

(** C10: on a map whose ordering slice holds every key of the store, the
    scan of ReplaceKey and the scan of Delete, run for a key of the store,
    return an index of the slice, at which the key stands; the slice write
    and the slice deletion are then in bounds, and neither call panics. *)
Theorem scans_in_bounds m :
  covered m →
  (∀ originalKey newKey,
     (Has m originalKey = true →
      let lli := slices.IndexFunc (ll m) (λ k, bool_decide (k = originalKey)) in
      0 ≤ lli < Len m ∧ ll m !! Z.to_nat lli = Some originalKey ∧
      is_Some (slices.store (ll m) lli newKey)) ∧
     is_Some (ReplaceKey m originalKey newKey)) ∧
  (∀ key,
     (Has m key = true →
      let lli := slices.Index (ll m) key in
      0 ≤ lli < Len m ∧ ll m !! Z.to_nat lli = Some key ∧
      is_Some (slices.Delete (ll m) lli (lli + 1))) ∧
     is_Some (Delete m key)).
Proof.
  intros Hcov. split.
  - intros originalKey newKey. split.
    + intros Hold lli. subst lli.
      destruct (scan_split (ll m) originalKey) as (pre & post & Hll & _ & -> & _).
      { apply Hcov. by apply Has_true. }
      unfold Len. rewrite Hll, length_app, Nat2Z.id, list_lookup_middle by done.
      rewrite store_middle. simpl. split_and!; [lia | lia | done | done].
    + destruct (Has m originalKey) eqn:Hold; [destruct (Has m newKey) eqn:Hnew|].
      * rewrite ReplaceKey_rejects by auto. done.
      * destruct (ReplaceKey_accepts m originalKey newKey)
          as (pre & post & _ & _ & _ & ->); done.
      * rewrite ReplaceKey_rejects by auto. done.
  - intros key. split.
    + intros Hkey lli. subst lli.
      destruct (scan_split (ll m) key) as (pre & post & Hll & _ & _ & ->).
      { apply Hcov. by apply Has_true. }
      unfold Len. rewrite Hll, length_app, Nat2Z.id, list_lookup_middle by done.
      rewrite Delete_middle. simpl. split_and!; [lia | lia | done | done].
    + destruct (Has m key) eqn:Hkey.
      * destruct (Delete_present m key) as (pre & post & _ & _ & _ & ->); done.
      * rewrite Delete_absent by done. done.
Qed.
End OrderedMap_claims.

(** ** Handles: Copy *)

Section Heap_facts.
Context {K : Type} `{Countable K} {V : Type} `{Inhabited V}.
Implicit Types (m : OrderedMap K V) (h : heap K V) (r : handle).

Lemma load_save r m h : load (save r m h) r = Some m.
Proof.
  unfold load, save. simpl. rewrite !lookup_insert_eq. simpl. by destruct m.
Qed.

Lemma load_save_separate r r' m h :
  separate r r' → load (save r m h) r' = load h r'.
Proof.
  intros [Hkv Hll]. unfold load, save. simpl.
  by rewrite !lookup_insert_ne.
Qed.

Lemma SetH_load r key value h m :
  load h r = Some m →
  SetH r key value h = Some (save r (Set_ m key value).1 h, (Set_ m key value).2).
Proof.
  intros Hload. unfold SetH, call. rewrite Hload. simpl.
  by destruct (Set_ m key value).
Qed.

Lemma stepH_step r o h m m' :
  load h r = Some m → step o m = Some m' → stepH r o h = Some (save r m' h).
Proof.
  intros Hload Hstep.
  destruct o as [key value | originalKey newKey | key]; simpl in *;
    unfold SetH, ReplaceKeyH, DeleteH, call; rewrite Hload; simpl.
  - destruct (Set_ m key value) as [m1 b]. by simplify_eq/=.
  - destruct (ReplaceKey m originalKey newKey) as [[m1 b]|]; by simplify_eq/=.
  - destruct (Delete m key) as [[m1 b]|]; by simplify_eq/=.
Qed.

Lemma runH_snoc r (ops : list (op K V)) o h :
  runH r (ops ++ [o]) h = runH r ops h ≫= stepH r o.
Proof. unfold runH. by rewrite foldl_app. Qed.

(** Calls through a handle act on what the handle refers to, and on
    nothing that a separate handle refers to. *)
Lemma runH_run r (ops : list (op K V)) h m m' :
  load h r = Some m → run ops m = Some m' →
  ∃ h', runH r ops h = Some h' ∧ load h' r = Some m' ∧
        ∀ r', separate r r' → load h' r' = load h r'.
Proof.
  intros Hload. revert m'. induction ops as [|o ops IH] using rev_ind; intros m' Hrun.
  - exists h. unfold run, runH in *. simpl in *. by simplify_eq.
  - rewrite run_snoc in Hrun.
    destruct (run ops m) as [m1|] eqn:Hrun1; [|done]. simpl in Hrun.
    destruct (IH m1 eq_refl) as (h1 & HrunH & Hload1 & Hframe).
    exists (save r m' h1). rewrite runH_snoc, HrunH. simpl.
    split_and!.
    + by apply (stepH_step r o h1 m1 m').
    + apply load_save.
    + intros r' Hsep. by rewrite load_save_separate, Hframe.
Qed.

(** Set of the keys of a duplicate-free list, each with its value, on the
    empty map. *)
Lemma fold_Set_fresh (g : K → V) (l : list K) :
  NoDup l →
  let m' := foldl (λ m2 key, (Set_ m2 key (g key)).1) MakeOrderedMap l in
  ll m' = l ∧ ∀ k, kv m' !! k = if decide (k ∈ l) then Some (g k) else None.
Proof.
  induction l as [|key l IH] using rev_ind; intros Hnd; cbv zeta.
  - split; [done|]. intros k. rewrite decide_False by apply not_elem_of_nil.
    apply lookup_empty.
  - apply NoDup_app in Hnd as (Hnd & Hdisj & _).
    destruct (IH Hnd) as [IHll IHkv]. rewrite foldl_app. simpl.
    set (m := foldl (λ m2 key, (Set_ m2 key (g key)).1) MakeOrderedMap l) in *.
    assert (key ∉ l) as Hfresh.
    { intros Hin. apply (Hdisj key Hin). by apply list_elem_of_singleton. }
    unfold Set_. rewrite bool_decide_eq_false_2; simpl.
    + rewrite IHll. split; [done|]. intros k.
      destruct (decide (k = key)) as [->|Hne].
      * rewrite lookup_insert_eq, decide_True; [done|].
        apply elem_of_app. right. by apply list_elem_of_singleton.
      * rewrite lookup_insert_ne, IHkv by done.
        destruct (decide (k ∈ l)) as [Hin|Hnin].
        -- rewrite decide_True; [done|]. apply elem_of_app. by left.
        -- rewrite decide_False; [done|].
           rewrite not_elem_of_app, list_elem_of_singleton. done.
    + rewrite IHkv, decide_False by done. by intros [? ?].
Qed.

(** Copy of a map in bijection has the contents of the map. *)
Lemma Copy_wf m : wf m → Copy m = Some m.
Proof.
  intros [Hnd Hbij]. unfold Copy, NewOrderedMapWithCapacity, Len.
  rewrite bool_decide_eq_true_2 by lia. simpl. f_equal.
  destruct (fold_Set_fresh (λ key, kv m !!! key) (ll m) Hnd) as [Hll Hkv].
  change {| kv := ∅; ll := [] |} with (MakeOrderedMap (K:=K) (V:=V)).
  destruct (foldl _ _ _) as [kv' ll']. destruct m as [kvm llm]. simpl in *.
  f_equal; [|done].
  apply map_eq. intros k. rewrite Hkv.
  destruct (decide (k ∈ llm)) as [Hin|Hnin].
  - apply Hbij in Hin as [v Hv]. by rewrite (lookup_total_correct _ _ _ Hv).
  - symmetry. apply eq_None_not_Some. by rewrite <- Hbij.
Qed.

(** The loop of [Copy], on the heap: it reads through [r], writes through
    [r2], and computes what [Copy] computes on the contents. *)
Lemma CopyH_loop r r2 m (l : list K) h1 m2 :
  separate r2 r → load h1 r = Some m → load h1 r2 = Some m2 →
  ∃ h2,
    foldl (λ oh key,
             h ← oh;
             kvm ← maps h !! kv_ref r;
             fst <$> SetH r2 key (kvm !!! key) h)
          (Some h1) l = Some h2 ∧
    load h2 r = Some m ∧
    load h2 r2 = Some (foldl (λ m2 key, (Set_ m2 key (kv m !!! key)).1) m2 l) ∧
    ∀ r', separate r2 r' → load h2 r' = load h1 r'.
Proof.
  intros Hsep Hr Hr2. induction l as [|key l IH] using rev_ind.
  - exists h1. by simpl.
  - destruct IH as (h2 & Hloop & Hr' & Hr2' & Hframe).
    rewrite !foldl_app. simpl. rewrite Hloop. simpl.
    assert (maps h2 !! kv_ref r = Some (kv m)) as ->.
    { unfold load in Hr'. destruct (maps h2 !! kv_ref r); [|done].
      simpl in Hr'. destruct (cells h2 !! ll_ref r); by simplify_eq/=. }
    simpl. rewrite (SetH_load r2 _ _ h2 _ Hr2'). simpl.
    eexists. split_and!; [done | | apply load_save |].
    + by rewrite load_save_separate.
    + intros r' Hsep'. by rewrite load_save_separate, Hframe.
Qed.

Lemma load_allocated h r m :
  load h r = Some m → kv_ref r ∈ dom (maps h) ∧ ll_ref r ∈ dom (cells h).
Proof.
  unfold load. intros Hload. rewrite !elem_of_dom.
  destruct (maps h !! kv_ref r); [|done]. simpl in Hload.
  destruct (cells h !! ll_ref r); [|done]. split; eauto.
Qed.

(** C7: Copy of a map in bijection, through a handle, returns a handle on
    a map with the pairs and the ordering slice of the original, which
    itself stays as it was; calls of Set, ReplaceKey and Delete through
    the copy's handle then leave the original as it was, and calls through
    the original's handle leave the copy as it was. *)
Theorem Copy_independent h r m :
  load h r = Some m → wf m →
  ∃ h' r2,
    CopyH r h = Some (h', r2) ∧
    load h' r = Some m ∧
    load h' r2 = Some m ∧
    (∀ ops : list (op K V), ∃ h'',
       runH r2 ops h' = Some h'' ∧ load h'' r2 = run ops m ∧ load h'' r = Some m) ∧
    (∀ ops : list (op K V), ∃ h'',
       runH r ops h' = Some h'' ∧ load h'' r = run ops m ∧ load h'' r2 = Some m).
Proof.
  intros Hload Hwf.
  destruct (load_allocated h r m Hload) as [Hkv Hll].
  set (r2 := {| kv_ref := fresh (dom (maps h)); ll_ref := fresh (dom (cells h)) |}).
  assert (separate r2 r) as Hsep.
  { split; simpl; intros Heq; [apply (is_fresh (dom (maps h)))
                               | apply (is_fresh (dom (cells h)))];
      by rewrite Heq. }
  assert (separate r r2) as Hsep' by (destruct Hsep; split; done).
  set (h1 := save r2 {| kv := ∅; ll := [] |} h).
  destruct (CopyH_loop r r2 m (ll m) h1 {| kv := ∅; ll := [] |})
    as (h2 & Hloop & Hr & Hr2 & _); [done | | apply load_save |].
  { unfold h1. by rewrite load_save_separate. }
  pose proof (Copy_wf m Hwf) as Hcopy.
  unfold Copy, NewOrderedMapWithCapacity in Hcopy.
  rewrite bool_decide_eq_true_2 in Hcopy by (unfold Len; lia).
  simpl in Hcopy. injection Hcopy as Hcopy. rewrite Hcopy in Hr2.
  exists h2, r2. split_and!; [|done|done| |].
  - unfold CopyH, NewOrderedMapWithCapacityH. rewrite Hload. simpl.
    rewrite bool_decide_eq_true_2 by (unfold Len; lia). simpl.
    fold r2. fold h1. by rewrite Hloop.
  - intros ops. destruct (run_wf ops m Hwf) as (m' & Hrun & _).
    destruct (runH_run r2 ops h2 m m' Hr2 Hrun) as (h'' & HrunH & Hload2 & Hframe).
    exists h''. by rewrite HrunH, Hload2, Hrun, (Hframe r Hsep).
  - intros ops. destruct (run_wf ops m Hwf) as (m' & Hrun & _).
    destruct (runH_run r ops h2 m m' Hr Hrun) as (h'' & HrunH & Hload2 & Hframe).
    exists h''. by rewrite HrunH, Hload2, Hrun, (Hframe r2 Hsep').
Qed.
End Heap_facts.

(** ** Multimaps: AppendMultiMap *)

Section MultiMap_facts.
Context {K : Type} `{Countable K} {V : Type} `{Inhabited V}.
Variable spare : nat → nat.
Implicit Types (mem : gmap loc (list V)) (s : slice) (m : OrderedMap K slice).

(** [append] yields a slice with the old elements followed by the new one,
    whether it writes in place or reallocates. *)
Lemma append_elems mem s x :
  valid mem s →
  elems (append spare mem s x).1 (append spare mem s x).2 = elems mem s ++ [x] ∧
  valid (append spare mem s x).1 (append spare mem s x).2.
Proof.
  intros [Hlen Hcap]. unfold append.
  destruct (bool_decide (len s < cap s)%nat) eqn:Hroom; simpl.
  - apply bool_decide_eq_true in Hroom.
    destruct Hcap as [Hcap | (a & Ha & Hbound)]; [lia|].
    unfold elems, valid. simpl.
    rewrite lookup_total_insert_eq, (lookup_total_correct _ _ _ Ha).
    split.
    + rewrite drop_insert_ge by lia.
      replace (off s + len s - off s)%nat with (len s) by lia.
      assert (len s < length (drop (off s) a))%nat as Hlt
        by (rewrite length_drop; lia).
      rewrite (take_S_r _ _ x) by (by apply list_lookup_insert_eq).
      by rewrite take_insert_ge.
    + split; [lia|]. right. eexists. rewrite lookup_insert_eq.
      split; [done|]. rewrite length_insert. lia.
  - apply bool_decide_eq_false in Hroom.
    unfold elems at 1, valid. simpl.
    rewrite lookup_total_insert_eq, lookup_insert_eq. simpl.
    assert (length (elems mem s) = len s) as Hl.
    { unfold elems. destruct Hcap as [Hcap | (a & Ha & Hbound)].
      - replace (len s) with 0%nat by lia. by rewrite take_0.
      - rewrite (lookup_total_correct _ _ _ Ha), length_take_le; [done|].
        rewrite length_drop. lia. }
    split.
    + rewrite (cons_middle x), (assoc_L (++)).
      apply take_app_length'. rewrite length_app, Hl. simpl. lia.
    + split; [lia|]. right. eexists. split; [done|].
      rewrite length_app, Hl. simpl. rewrite length_replicate. lia.
Qed.

Lemma literal1_elems mem x :
  elems (literal1 mem x).1 (literal1 mem x).2 = [x] ∧
  valid (literal1 mem x).1 (literal1 mem x).2.
Proof.
  unfold literal1, elems, valid. simpl.
  rewrite lookup_total_insert_eq, lookup_insert_eq. simpl.
  split; [done|]. split; [lia|]. right. eexists. split; [done|]. simpl. lia.
Qed.

Lemma AppendMultiMap_present mem m key value a :
  kv m !! key = Some a →
  AppendMultiMap spare mem m key value =
    ((append spare mem a value).1, (Set_ m key (append spare mem a value).2).1).
Proof.
  intros Ha. unfold AppendMultiMap, Get.
  rewrite (lookup_total_correct _ _ _ Ha), Ha, bool_decide_eq_true_2 by eauto.
  by destruct (append spare mem a value).
Qed.

Lemma AppendMultiMap_absent mem m key value :
  kv m !! key = None →
  AppendMultiMap spare mem m key value =
    ((literal1 mem value).1, (Set_ m key (literal1 mem value).2).1).
Proof.
  intros Ha. unfold AppendMultiMap, Get.
  rewrite Ha, bool_decide_eq_false_2 by (by intros [? ?]).
  by destruct (literal1 mem value).
Qed.

Lemma Get_Set m key (a : slice) : Get (Set_ m key a).1 key = (a, true).
Proof.
  unfold Get, Set_. destruct (bool_decide (is_Some (kv m !! key))); simpl;
    rewrite lookup_total_insert_eq, lookup_insert_eq;
    by rewrite bool_decide_eq_true_2.
Qed.

(** C9: AppendMultiMap leaves under the key a slice that holds the elements
    of the slice stored before followed by the value, when the key was in
    the map, and the value alone when it was not; the map it returns is the
    one with this slice stored.  In particular two calls for one key on the
    empty multimap leave the two values, in the order of the calls. *)
Theorem AppendMultiMap_appends :
  (∀ mem m key value,
     (∀ a, kv m !! key = Some a → valid mem a) →
     let mem' := (AppendMultiMap spare mem m key value).1 in
     let m' := (AppendMultiMap spare mem m key value).2 in
     (Get m' key).2 = true ∧
     valid mem' (Get m' key).1 ∧
     (∀ a, kv m !! key = Some a →
           elems mem' (Get m' key).1 = elems mem a ++ [value]) ∧
     (kv m !! key = None → elems mem' (Get m' key).1 = [value])) ∧
  (∀ (key : K) (v1 v2 : V),
     let r1 := AppendMultiMap spare ∅ MakeOrderedMap key v1 in
     let r2 := AppendMultiMap spare r1.1 r1.2 key v2 in
     elems r2.1 (Get r2.2 key).1 = [v1; v2]).
Proof.
  assert (∀ mem m key value,
     (∀ a, kv m !! key = Some a → valid mem a) →
     let mem' := (AppendMultiMap spare mem m key value).1 in
     let m' := (AppendMultiMap spare mem m key value).2 in
     (Get m' key).2 = true ∧
     valid mem' (Get m' key).1 ∧
     (∀ a, kv m !! key = Some a →
           elems mem' (Get m' key).1 = elems mem a ++ [value]) ∧
     (kv m !! key = None → elems mem' (Get m' key).1 = [value])) as Hgen.
  { intros mem m key value Hvalid mem' m'. subst mem' m'.
    destruct (kv m !! key) as [a|] eqn:Ha.
    - rewrite (AppendMultiMap_present mem m key value a Ha).
      cbn [fst snd]. rewrite Get_Set. cbn [fst snd].
      destruct (append_elems mem a value (Hvalid a eq_refl)) as [Helems Hval].
      split_and!; [done | done | | done].
      intros a' Ha'. by simplify_eq.
    - rewrite (AppendMultiMap_absent mem m key value Ha).
      cbn [fst snd]. rewrite Get_Set. cbn [fst snd].
      destruct (literal1_elems mem value) as [Helems Hval].
      split_and!; done. }
  split; [exact Hgen|].
  intros key v1 v2 r1 r2.
  destruct (Hgen ∅ MakeOrderedMap key v1) as (Hget1 & Hval1 & _ & Hnew).
  { intros a. simpl. by rewrite lookup_empty. }
  fold r1 in Hget1, Hval1, Hnew.
  specialize (Hnew (lookup_empty _)).
  unfold Get in Hget1. simpl in Hget1. apply bool_decide_eq_true in Hget1.
  destruct Hget1 as [a Ha].
  unfold Get in Hval1, Hnew. simpl in Hval1, Hnew.
  rewrite (lookup_total_correct _ _ _ Ha) in Hval1, Hnew.
  destruct (Hgen r1.1 r1.2 key v2) as (_ & _ & Hold & _).
  { intros a' Ha'. by simplify_eq. }
  fold r2 in Hold. by rewrite (Hold a Ha), Hnew.
Qed.
End MultiMap_facts.

(** ** The claims on concrete maps *)

Lemma wf_abc : wf abc.
Proof. apply wfb_wf. reflexivity. Qed.

Lemma reachable_bijection_witness :
  ∃ m, run [OpSet "a" 1; OpSet "b" 2; OpSet "a" 5; OpReplaceKey "b" "x"; OpDelete "a"]
           MakeOrderedMap = Some m ∧
    collect (Keys m) = ["x"] ∧ Get m "x" = (2, true) ∧ Len m = 1 ∧
    Len m = Z.of_nat (size (kv m)).
Proof.
  destruct (reachable_bijection (K:=string) (V:=Z)
              [OpSet "a" 1; OpSet "b" 2; OpSet "a" 5; OpReplaceKey "b" "x"; OpDelete "a"])
    as (m & Hrun & _ & _ & _ & _ & _ & Hlen).
  exists m. split; [exact Hrun|].
  assert (Some (foldl (λ m p, (Set_ m p.1 p.2).1) MakeOrderedMap [("x", 2)]) = Some m)
    as Hm by (rewrite <- Hrun; vm_compute; reflexivity).
  injection Hm as Hm.
  split_and!; [| | | exact Hlen]; rewrite <- Hm; vm_compute; reflexivity.
Defined.

Lemma Set_new_or_overwrite_witness :
  let m := (Set_ (Set_ MakeOrderedMap "k1" 1).1 "k2" 2).1 in
  Has m "k1" = true ∧ Has m "k3" = false ∧
  (Set_ m "k1" 9).2 = false ∧
  collect (Keys (Set_ m "k1" 9).1) = ["k1"; "k2"] ∧
  Get (Set_ m "k1" 9).1 "k1" = (9, true) ∧
  (Set_ m "k1" 1).2 = false ∧
  (Set_ m "k3" 3).2 = true ∧
  ll (Set_ m "k3" 3).1 = ll m ++ ["k3"].
Proof.
  intros m.
  destruct (Set_new_or_overwrite m "k1" 9) as (_ & Hold & Hget).
  destruct (Hold eq_refl) as [Hset Hkeys].
  destruct (Set_new_or_overwrite m "k1" 1) as (_ & Hsame & _).
  destruct (Hsame eq_refl) as [Hset1 _].
  destruct (Set_new_or_overwrite m "k3" 3) as (Hnew & _ & _).
  specialize (Hnew eq_refl).
  split_and!; [reflexivity | reflexivity | | | exact Hget | | |].
  - by rewrite Hset.
  - rewrite Hkeys. reflexivity.
  - by rewrite Hset1.
  - by rewrite Hnew.
  - by rewrite Hnew.
Defined.

Lemma ReplaceKey_rejected_witness :
  Has abc "z" = false ∧ ReplaceKey abc "z" "y" = Some (abc, false) ∧
  Has abc "b" = true ∧ ReplaceKey abc "a" "b" = Some (abc, false).
Proof.
  split_and!; [reflexivity | | reflexivity |].
  - apply (ReplaceKey_rejected abc "z" "y"). left. reflexivity.
  - apply (ReplaceKey_rejected abc "a" "b"). right. reflexivity.
Defined.

Lemma ReplaceKey_renames_witness :
  wf abc ∧ Has abc "b" = true ∧ Has abc "x" = false ∧
  ∃ m', ReplaceKey abc "b" "x" = Some (m', true) ∧
    collect (pairs (AllFromFront m')) = [("a", 1); ("x", 2); ("c", 3)] ∧
    Get m' "x" = (2, true) ∧ Has m' "b" = false.
Proof.
  split_and!; [exact wf_abc | reflexivity | reflexivity |].
  destruct (ReplaceKey_renames abc "b" "x" wf_abc eq_refl eq_refl)
    as (m' & i & Hr & Hhas & Hget & Hi & _ & _ & Hfront).
  exists m'. split_and!; [exact Hr | | exact Hget | exact Hhas].
  rewrite Hfront.
  vm_compute in Hi.
  destruct i as [|[|[|i]]]; try discriminate Hi.
  vm_compute. reflexivity.
Defined.

Lemma Delete_present_or_absent_witness :
  wf abc ∧ Has abc "b" = true ∧ Has abc "z" = false ∧
  (∃ m', Delete abc "b" = Some (m', true) ∧ Has m' "b" = false ∧
     collect (pairs (AllFromFront m')) = [("a", 1); ("c", 3)] ∧
     collect (pairs (AllFromBack m')) = [("c", 3); ("a", 1)]) ∧
  Delete abc "z" = Some (abc, false).
Proof.
  destruct (Delete_present_or_absent abc "b" wf_abc) as [Hpresent _].
  destruct (Delete_present_or_absent abc "z" wf_abc) as [_ Habsent].
  destruct (Hpresent eq_refl) as (m' & Hd & Hhas & Hfront & Hback & _).
  split_and!; [exact wf_abc | reflexivity | reflexivity | | exact (Habsent eq_refl)].
  exists m'. rewrite Hfront, Hback. split_and!; [exact Hd | exact Hhas | |]; reflexivity.
Defined.

Lemma traversal_order_witness :
  NoDup ["a"; "b"; "c"] ∧
  collect (pairs (AllFromFront abc)) = [("a", 1); ("b", 2); ("c", 3)] ∧
  collect (pairs (All abc)) = [("a", 1); ("b", 2); ("c", 3)] ∧
  collect (pairs (AllFromBack abc)) = [("c", 3); ("b", 2); ("a", 1)].
Proof.
  assert (NoDup ["a"; "b"; "c"]) as Hnd by compute_done.
  split; [exact Hnd|].
  exact (proj2 (traversal_order (K:=string) (V:=Z))
           [("a", 1); ("b", 2); ("c", 3)] Hnd).
Defined.

Lemma Copy_independent_witness :
  load h0 r0 = Some abc ∧ wf abc ∧
  ∃ h' r2, CopyH r0 h0 = Some (h', r2) ∧ load h' r2 = Some abc ∧
    (∃ h'', runH r2 [OpSet "d" 4; OpDelete "a"] h' = Some h'' ∧
       load h'' r0 = Some abc ∧
       (λ m, collect (Keys m)) <$> load h'' r2 = Some ["b"; "c"; "d"]) ∧
    (∃ h'', runH r0 [OpSet "d" 4; OpDelete "a"] h' = Some h'' ∧
       load h'' r2 = Some abc ∧
       (λ m, collect (Keys m)) <$> load h'' r0 = Some ["b"; "c"; "d"]).
Proof.
  assert (load h0 r0 = Some abc) as Hload by reflexivity.
  split_and!; [exact Hload | exact wf_abc |].
  destruct (Copy_independent h0 r0 abc Hload wf_abc)
    as (h' & r2 & Hcopy & _ & Hl2 & Hcp & Horig).
  exists h', r2. split_and!; [exact Hcopy | exact Hl2 | |].
  - destruct (Hcp [OpSet "d" 4; OpDelete "a"]) as (h'' & Hrun & Hl2' & Hl').
    exists h''. rewrite Hl2'. split_and!; [exact Hrun | exact Hl' | reflexivity].
  - destruct (Horig [OpSet "d" 4; OpDelete "a"]) as (h'' & Hrun & Hl' & Hl2').
    exists h''. rewrite Hl'. split_and!; [exact Hrun | exact Hl2' | reflexivity].
Defined.

Lemma two_keys_stops (xs : list (string * Z)) :
  (2 ≤ length xs)%nat → stops_after two_keys [] xs 2.
Proof.
  intros Hlen. destruct xs as [|x [|y xs]]; simpl in Hlen; [lia.. |].
  split; [lia|]. split.
  - exists y. split; reflexivity.
  - intros j z Hj Hz. destruct j as [|j]; [|lia]. reflexivity.
Qed.

Lemma iterators_early_exit_witness :
  stops_after two_keys [] (collect (pairs (AllFromFront abc))) 2 ∧
  stops_after two_keys [] (collect (pairs (AllFromBack abc))) 2 ∧
  pairs (AllFromFront abc) _ (counted two_keys) ([], 0%nat) = (["a"; "b"], 2%nat) ∧
  pairs (AllFromBack abc) _ (counted two_keys) ([], 0%nat) = (["c"; "b"], 2%nat).
Proof.
  assert (stops_after two_keys [] (collect (pairs (AllFromFront abc))) 2) as Hfront
    by (apply two_keys_stops; vm_compute; lia).
  assert (stops_after two_keys [] (collect (pairs (AllFromBack abc))) 2) as Hback
    by (apply two_keys_stops; vm_compute; lia).
  destruct (iterators_early_exit abc) as (Hf & Hb & _).
  split_and!; [exact Hfront | exact Hback | |].
  - rewrite (Hf _ two_keys [] 2%nat Hfront). reflexivity.
  - rewrite (Hb _ two_keys [] 2%nat Hback). reflexivity.
Defined.

Lemma AppendMultiMap_appends_witness :
  let r1 := AppendMultiMap (λ n, n) ∅ (MakeOrderedMap (K:=string)) "a" 1 in
  let r2 := AppendMultiMap (λ n, n) r1.1 r1.2 "a" 2 in
  let r3 := AppendMultiMap (λ n, n) r2.1 r2.2 "a" 3 in
  (∀ a, kv r2.2 !! "a" = Some a → valid r2.1 a) ∧
  elems r2.1 (Get r2.2 "a").1 = [1; 2] ∧
  elems r3.1 (Get r3.2 "a").1 = [1; 2; 3] ∧
  (Get r3.2 "a").2 = true.
Proof.
  intros r1 r2 r3.
  destruct (AppendMultiMap_appends (K:=string) (V:=Z) (λ n, n)) as [Hgen Htwice].
  assert (∀ a, kv r2.2 !! "a" = Some a → valid r2.1 a) as Hvalid.
  { intros a Ha. vm_compute in Ha. injection Ha as <-.
    split; [simpl; lia|]. right. eexists. split; [reflexivity|]. vm_compute. lia. }
  destruct (Hgen r2.1 r2.2 "a" 3 Hvalid) as (Hget & _ & Hold & _).
  split_and!; [exact Hvalid | exact (Htwice "a" 1 2) | | exact Hget].
  assert (kv r2.2 !! "a" = Some (Get r2.2 "a").1) as Ha by reflexivity.
  fold r3 in Hold. rewrite (Hold _ Ha).
  exact (f_equal (λ l, l ++ [3]) (Htwice "a" 1 2)).
Defined.

Lemma scans_in_bounds_witness :
  covered abc ∧ Has abc "c" = true ∧
  slices.IndexFunc (ll abc) (λ k, bool_decide (k = "c")) = 2 ∧
  slices.Index (ll abc) "c" = 2 ∧ Len abc = 3 ∧
  is_Some (slices.store (ll abc) 2 "z") ∧
  is_Some (slices.Delete (ll abc) 2 (2 + 1)) ∧
  is_Some (ReplaceKey abc "c" "z") ∧
  is_Some (Delete abc "c").
Proof.
  assert (covered abc) as Hcov by (apply coveredb_covered; reflexivity).
  destruct (scans_in_bounds abc Hcov) as [Hreplace Hdelete].
  destruct (Hreplace "c" "z") as [Hi Hr].
  destruct (Hdelete "c") as [Hj Hd].
  destruct (Hi eq_refl) as (_ & _ & Hstore).
  destruct (Hj eq_refl) as (_ & _ & Hdel).
  exact (conj Hcov (conj eq_refl (conj eq_refl (conj eq_refl (conj eq_refl
           (conj Hstore (conj Hdel (conj Hr Hd)))))))).
Defined.

(** Where the ordering slice lacks a key of the store the scans return -1
    and the calls panic: the condition of C10 is needed, and by C1 it holds
    of every map the calls produce. *)
Example uncovered_panics :
  slices.Index (ll uncovered) "a" = -1 ∧
  Delete uncovered "a" = None ∧ ReplaceKey uncovered "a" "b" = None.
Proof. split_and!; reflexivity. Qed.

(** * Further properties of the code *)

(** ** How the calls compose *)

Section OrderedMap_more.
Context {K : Type} `{Countable K} {V : Type} `{Inhabited V}.
Implicit Types (m : OrderedMap K V) (key : K) (value : V).

Lemma Set_kv m key value : kv (Set_ m key value).1 = <[key := value]> (kv m).
Proof. unfold Set_. by destruct (bool_decide _). Qed.

Lemma Set_ll m key value :
  ll (Set_ m key value).1 = if Has m key then ll m else ll m ++ [key].
Proof. unfold Set_, Has. by destruct (bool_decide _). Qed.

Lemma OrderedMap_eq m1 m2 : kv m1 = kv m2 → ll m1 = ll m2 → m1 = m2.
Proof. destruct m1, m2. simpl. by intros -> ->. Qed.

(** The slice without the first occurrence of a key that occurs once. *)
Lemma filter_middle (pre post : list K) key :
  key ∉ pre → key ∉ post →
  filter (λ k, k ≠ key) (pre ++ key :: post) = pre ++ post.
Proof.
  intros Hpre Hpost.
  rewrite filter_app, filter_cons_False by naive_solver.
  rewrite !filter_all; [done | |]; apply Forall_forall; naive_solver.
Qed.

(** X1: Set of one key changes what no other key reads: Get, Has and
    GetOrDefault of another key answer as before. *)
Theorem Set_other_keys m key value key' :
  key' ≠ key →
  Get (Set_ m key value).1 key' = Get m key' ∧
  Has (Set_ m key value).1 key' = Has m key' ∧
  ∀ defaultValue,
    GetOrDefault (Set_ m key value).1 key' defaultValue
    = GetOrDefault m key' defaultValue.
Proof.
  intros Hne. unfold Get, Has, GetOrDefault.
  rewrite Set_kv, lookup_total_insert_ne, lookup_insert_ne by done. done.
Qed.

(** X2: of two Sets of one key the last one wins: the map is the one a
    single Set of the second value gives, and the second call returns
    false. *)
Theorem Set_twice m key value1 value2 :
  Set_ (Set_ m key value1).1 key value2 = ((Set_ m key value2).1, false).
Proof.
  unfold Set_ at 1.
  rewrite bool_decide_eq_true_2
    by (rewrite Set_kv, lookup_insert_eq; eauto).
  f_equal. apply OrderedMap_eq; simpl.
  - by rewrite !Set_kv, insert_insert_eq.
  - by rewrite !Set_ll.
Qed.

(** X3: on a map in bijection, Set of a key that is not in the map followed
    by Delete of that key gives the map back. *)
Theorem Set_Delete_roundtrip m key value :
  wf m → Has m key = false →
  Delete (Set_ m key value).1 key = Some (m, true).
Proof.
  intros Hwf Hkey.
  assert (key ∉ ll m) as Hnotin.
  { destruct Hwf as [_ Hbij]. rewrite Hbij. apply Has_false in Hkey.
    rewrite Hkey. by intros [? ?]. }
  destruct (Delete_present (Set_ m key value).1 key)
    as (pre & post & Hll & Hpre & _ & ->).
  { by apply wf_covered, Set_wf. }
  { apply Has_true. rewrite Set_kv, lookup_insert_eq. eauto. }
  rewrite Set_ll, Hkey in Hll.
  destruct (not_elem_of_app_cons_inv_l key key (ll m) [] pre post Hpre Hnotin Hll)
    as (<- & _ & <-).
  do 2 f_equal. apply OrderedMap_eq; simpl.
  - rewrite Set_kv. apply delete_insert_id. by apply Has_false.
  - by rewrite app_nil_r.
Qed.

(** X4: on a map in bijection, Delete of a key that is in the map followed
    by Set of that key moves the key to the end of the ordering slice:
    Delete returns true, Set returns true (the key is new again), the other
    keys keep their order. *)
Theorem Delete_Set_moves_back m key value :
  wf m → Has m key = true →
  ∃ m1, Delete m key = Some (m1, true) ∧
    Set_ m1 key value =
      ({| kv := <[key := value]> (kv m);
          ll := filter (λ k, k ≠ key) (ll m) ++ [key] |}, true).
Proof.
  intros [Hnd Hbij] Hkey.
  destruct (Delete_present m key) as (pre & post & Hll & Hpre & _ & ->);
    [by apply wf_covered | done |].
  eexists. split; [done|].
  rewrite Hll in Hnd. apply NoDup_app in Hnd as (_ & _ & [Hpost _]%NoDup_cons).
  unfold Set_. simpl.
  rewrite bool_decide_eq_false_2
    by (rewrite lookup_delete_eq; by intros [? ?]).
  by rewrite insert_delete_eq, Hll, filter_middle.
Qed.

(** X5: on a map in bijection, renaming a key and renaming it back gives
    the map back: both calls return true, and the value, the position and
    every other entry are as at the start. *)
Theorem ReplaceKey_roundtrip m originalKey newKey :
  wf m → Has m originalKey = true → Has m newKey = false →
  ∃ m1, ReplaceKey m originalKey newKey = Some (m1, true) ∧
        ReplaceKey m1 newKey originalKey = Some (m, true).
Proof.
  intros Hwf Hold Hnew.
  assert (originalKey ≠ newKey) as Hne by (intros ->; congruence).
  destruct (ReplaceKey_accepts m originalKey newKey)
    as (pre & post & Hll & Hpre & _ & Heq); [by apply wf_covered | done..|].
  eexists. split; [exact Heq|].
  pose proof (ReplaceKey_wf _ _ _ _ _ Hwf Heq) as Hwf1.
  set (m1 := {| kv := <[newKey := kv m !!! originalKey]> (delete originalKey (kv m));
                ll := pre ++ newKey :: post |}) in *.
  assert (newKey ∉ ll m) as Hfresh.
  { destruct Hwf as [_ Hbij]. rewrite Hbij. apply Has_false in Hnew.
    rewrite Hnew. by intros [? ?]. }
  destruct (ReplaceKey_accepts m1 newKey originalKey)
    as (pre' & post' & Hll' & Hpre' & _ & ->).
  { by apply wf_covered. }
  { apply Has_true. simpl. rewrite lookup_insert_eq. eauto. }
  { apply Has_false. simpl. by rewrite lookup_insert_ne, lookup_delete_eq. }
  simpl in Hll'.
  assert (newKey ∉ pre) as Hpre2.
  { intros Hin. apply Hfresh. rewrite Hll. apply elem_of_app. by left. }
  destruct (not_elem_of_app_cons_inv_l newKey newKey pre post pre' post' Hpre' Hpre2 Hll')
    as (<- & _ & <-).
  do 2 f_equal. apply OrderedMap_eq; simpl; [|done].
  rewrite lookup_total_insert_eq, delete_insert_id
    by (by rewrite lookup_delete_ne; [apply Has_false|]).
  apply Has_true in Hold as [v Hv].
  rewrite (lookup_total_correct _ _ _ Hv). by apply insert_delete_id.
Qed.

(** X6: Len counts the calls that took effect.  The empty map has length
    0; Set adds one exactly when the key was not in the map; a Delete that
    returns has removed one exactly when it returns true, which is when the
    key was in the map; a ReplaceKey that returns leaves the length. *)
Theorem Len_changes m key value :
  Len (MakeOrderedMap (K:=K) (V:=V)) = 0 ∧
  Len (Set_ m key value).1 = Len m + (if Has m key then 0 else 1) ∧
  (∀ m' b, Delete m key = Some (m', b) →
           b = Has m key ∧ Len m' = Len m - (if b then 1 else 0)) ∧
  (∀ newKey m' b, ReplaceKey m key newKey = Some (m', b) → Len m' = Len m).
Proof.
  split_and!.
  - done.
  - unfold Len. rewrite Set_ll. destruct (Has m key); [lia|].
    rewrite length_app. simpl. lia.
  - intros m' b. unfold Delete, Has, Len.
    destruct (bool_decide (is_Some (kv m !! key))); [|by intros [= <- <-]; lia].
    unfold slices.Delete. case_bool_decide as Hb; [|done]. simpl.
    intros [= <- <-]. split; [done|]. simpl.
    rewrite length_app, length_take, length_drop. lia.
  - intros newKey m' b. unfold ReplaceKey, Len.
    destruct (_ && _); [|by intros [= <- <-]].
    unfold slices.store. case_bool_decide; [|done]. simpl.
    intros [= <- <-]. simpl. by rewrite length_insert.
Qed.

(** X7: after a Delete that returns, the key reads as missing: Get gives
    the zero value and false, Has gives false, GetOrDefault gives the
    default; every other key reads as before. *)
Theorem lookup_after_Delete m key m' b :
  Delete m key = Some (m', b) →
  Get m' key = (inhabitant, false) ∧
  Has m' key = false ∧
  (∀ defaultValue, GetOrDefault m' key defaultValue = defaultValue) ∧
  (∀ key', key' ≠ key →
     Get m' key' = Get m key' ∧
     ∀ defaultValue,
       GetOrDefault m' key' defaultValue = GetOrDefault m key' defaultValue).
Proof.
  intros Hd.
  assert (kv m' = delete key (kv m)) as Hkv.
  { unfold Delete in Hd.
    destruct (bool_decide (is_Some (kv m !! key))) eqn:Hk.
    - destruct (slices.Delete _ _ _); by simplify_eq/=.
    - apply bool_decide_eq_false in Hk. simplify_eq.
      symmetry. apply delete_id. by apply eq_None_not_Some. }
  unfold Get, Has, GetOrDefault. rewrite Hkv.
  split_and!.
  - rewrite lookup_total_delete_eq, lookup_delete_eq.
    by rewrite bool_decide_eq_false_2 by (by intros [? ?]).
  - rewrite lookup_delete_eq. by rewrite bool_decide_eq_false_2 by (by intros [? ?]).
  - intros d. by rewrite lookup_delete_eq.
  - intros key' Hne. by rewrite lookup_total_delete_ne, lookup_delete_ne.
Qed.

(** X8: no call reorders the keys that stay.  On a map in bijection, for
    each of Set, ReplaceKey and Delete, the keys that are in the ordering
    slice before and after the call stand in the same order before and
    after. *)
Theorem step_keeps_order m (o : op K V) m' :
  wf m → step o m = Some m' →
  filter (λ k, k ∈ ll m) (ll m') = filter (λ k, k ∈ ll m') (ll m).
Proof.
  intros Hwf Hstep.
  assert (∀ l : list K, filter (λ k, k ∈ l) l = l) as Hself.
  { intros l. apply filter_all, Forall_forall. done. }
  destruct o as [key value | originalKey newKey | key]; simpl in Hstep.
  - injection Hstep as <-. rewrite Set_ll.
    destruct (Has m key) eqn:Hkey; [done|].
    assert (key ∉ ll m) as Hnotin.
    { destruct Hwf as [_ Hbij]. rewrite Hbij. apply Has_false in Hkey.
      rewrite Hkey. by intros [? ?]. }
    rewrite filter_app, Hself, filter_cons_False, filter_nil, app_nil_r by done.
    symmetry. apply filter_all, Forall_forall. intros k Hk.
    apply elem_of_app. by left.
  - destruct (Has m originalKey) eqn:Hold; [destruct (Has m newKey) eqn:Hnew|].
    + rewrite ReplaceKey_rejects in Hstep by auto. by simplify_eq/=.
    + destruct (ReplaceKey_accepts m originalKey newKey)
        as (pre & post & Hll & Hpre & _ & Heq); [by apply wf_covered | done..|].
      rewrite Heq in Hstep. simplify_eq/=.
      assert (originalKey ≠ newKey) as Hne by (intros ->; congruence).
      destruct Hwf as [Hnd Hbij]. rewrite Hll in Hnd, Hbij. rewrite Hll.
      apply Has_false in Hnew.
      assert (newKey ∉ pre ++ originalKey :: post) as Hfresh.
      { rewrite Hbij, Hnew. by intros [? ?]. }
      apply NoDup_app in Hnd as (_ & Hdisj & [Hpost _]%NoDup_cons).
      rewrite not_elem_of_app, not_elem_of_cons in Hfresh.
      rewrite !filter_app, (filter_cons_False _ newKey), (filter_cons_False _ originalKey).
      * rewrite !filter_all; [done | | | |]; apply Forall_forall; intros k Hk;
          rewrite elem_of_app, elem_of_cons; naive_solver.
      * rewrite elem_of_app, elem_of_cons. naive_solver.
      * rewrite elem_of_app, elem_of_cons. naive_solver.
    + rewrite ReplaceKey_rejects in Hstep by auto. by simplify_eq/=.
  - destruct (Has m key) eqn:Hkey.
    + destruct (Delete_present m key) as (pre & post & Hll & Hpre & _ & Heq);
        [by apply wf_covered | done |].
      rewrite Heq in Hstep. simplify_eq/=.
      destruct Hwf as [Hnd _]. rewrite Hll in Hnd. rewrite Hll.
      apply NoDup_app in Hnd as (_ & Hdisj & [Hpost _]%NoDup_cons).
      rewrite !filter_app, (filter_cons_False _ key)
        by (rewrite elem_of_app; naive_solver).
      rewrite !filter_all; [done | | | |]; apply Forall_forall; intros k Hk;
        rewrite ?elem_of_app, ?elem_of_cons; naive_solver.
    + rewrite Delete_absent in Hstep by done. by simplify_eq/=.
Qed.

(** X9: Delete is free of panics exactly on the maps whose ordering slice
    holds every key of the store: where a key of the store is missing from
    the slice, the scan returns -1 and Delete of the key panics, and so
    does ReplaceKey of it to a key that is not in the store. *)
Theorem panic_free_iff_covered m :
  (covered m ↔ ∀ key, is_Some (Delete m key)) ∧
  (∀ key, Has m key = true → key ∉ ll m →
     slices.Index (ll m) key = -1 ∧
     Delete m key = None ∧
     ∀ newKey, Has m newKey = false → ReplaceKey m key newKey = None).
Proof.
  assert (∀ key (f : K → bool), (∀ k, f k = true ↔ k = key) → key ∉ ll m →
            slices.IndexFunc_from 0 (ll m) f = -1) as Hscan.
  { intros key f Hf Hnotin.
    destruct (IndexFunc_from_split (ll m) f 0)
      as [(pre & x & post & Hll & _ & Hx & _) | [_ ->]]; [|done].
    apply Hf in Hx as ->. exfalso. apply Hnotin. rewrite Hll.
    apply elem_of_app. right. by left. }
  assert (∀ key, Has m key = true → key ∉ ll m →
     slices.Index (ll m) key = -1 ∧
     Delete m key = None ∧
     ∀ newKey, Has m newKey = false → ReplaceKey m key newKey = None) as Hpanic.
  { intros key Hkey Hnotin.
    assert (slices.Index (ll m) key = -1) as Hindex.
    { unfold slices.Index. apply (Hscan key); [|done].
      intros k. rewrite bool_decide_eq_true. naive_solver. }
    split_and!; [done | |].
    - unfold Delete. unfold Has in Hkey. by rewrite Hkey, Hindex.
    - intros newKey Hnew. unfold ReplaceKey. unfold Has in Hkey, Hnew.
      rewrite Hkey, Hnew. simpl. unfold slices.IndexFunc.
      rewrite (Hscan key); [done | | done].
      intros k. by rewrite bool_decide_eq_true. }
  split; [split | exact Hpanic].
  - intros Hcov key. destruct (Has m key) eqn:Hkey.
    + by destruct (Delete_present m key Hcov Hkey) as (? & ? & _ & _ & _ & ->).
    + by rewrite Delete_absent.
  - intros Hsafe key Hkey%Has_true.
    destruct (decide (key ∈ ll m)) as [|Hnotin]; [done|].
    specialize (Hsafe key).
    destruct (Hpanic key Hkey Hnotin) as (_ & Hd & _). rewrite Hd in Hsafe.
    by destruct Hsafe.
Qed.
End OrderedMap_more.

(** ** Traversals and construction from elements *)

Section Traversal_more.
Context {K : Type} `{Countable K} {V : Type} `{Inhabited V}.
Implicit Types (m : OrderedMap K V) (key : K) (value : V).

(** A loop whose body never returns early runs the body on every element. *)
Lemma range_counted_all {E St} (s : list E) (yield : E → St → St * bool) st n :
  never_stops yield st s →
  slices.range s (counted yield) (st, n) = (feed yield st s, (n + length s)%nat).
Proof.
  revert st n. induction s as [|x s IH]; intros st n Hgo.
  - simpl. f_equal. lia.
  - specialize (Hgo 0%nat x eq_refl) as Hx. unfold feed in Hx. simpl in Hx.
    change (slices.range (x :: s) (counted yield) (st, n))
      with (let '(st', c) := counted yield x (st, n) in
            if c then slices.range s (counted yield) st' else st').
    unfold counted at 1.
    destruct (yield x st) as [st' c] eqn:Hyx. simpl in Hx. subst c.
    rewrite (IH st' (S n)).
    + unfold feed. simpl. rewrite Hyx. simpl. f_equal. lia.
    + intros j z Hz. specialize (Hgo (S j) z Hz).
      unfold feed in *. simpl in Hgo. by rewrite Hyx in Hgo.
Qed.

Lemma runs_through_range {A E} (g : A → E) (l : list A) :
  runs_through (λ St yield, slices.range l (λ x, yield (g x))).
Proof.
  intros St yield st. unfold collect.
  rewrite <- (range_fmap g l (λ x acc, (acc ++ [x], true))), range_collect.
  rewrite <- (range_fmap g l (counted yield)). simpl.
  intros Hgo. by rewrite (range_counted_all _ _ _ 0%nat Hgo).
Qed.

(** X10: each of AllFromFront, AllFromBack, All, Keys and Values, handed a
    consumer that never stops, calls it once on every element of the
    sequence, in order; each sequence has [Len] elements. *)
Theorem iterators_run_through m :
  runs_through (pairs (AllFromFront m)) ∧
  runs_through (pairs (AllFromBack m)) ∧
  runs_through (pairs (All m)) ∧
  runs_through (Keys m) ∧
  runs_through (Values m) ∧
  Z.of_nat (length (collect (pairs (AllFromFront m)))) = Len m ∧
  Z.of_nat (length (collect (pairs (AllFromBack m)))) = Len m ∧
  Z.of_nat (length (collect (Keys m))) = Len m ∧
  Z.of_nat (length (collect (Values m))) = Len m.
Proof.
  split_and!.
  - apply (runs_through_range (λ key, (key, kv m !!! key)) (ll m)).
  - intros St yield st. unfold collect, pairs, AllFromBack.
    rewrite (Backward_range (ll m) (λ key, counted yield (key, kv m !!! key))).
    rewrite (Backward_range (ll m) (λ key acc, (acc ++ [(key, kv m !!! key)], true))).
    apply (runs_through_range (λ key, (key, kv m !!! key)) (reverse (ll m))).
  - apply (runs_through_range (λ key, (key, kv m !!! key)) (ll m)).
  - apply (runs_through_range (λ key, key) (ll m)).
  - apply (runs_through_range (λ key, kv m !!! key) (ll m)).
  - by rewrite collect_AllFromFront, length_fmap.
  - by rewrite collect_AllFromBack, length_reverse, length_fmap.
  - by rewrite collect_Keys.
  - by rewrite collect_Values, length_fmap.
Qed.

(** X11: the traversals agree with each other and with the store.  All
    yields the keys of Keys paired with the values of Values; and on a map
    in bijection the pairs a front traversal yields, read as a map, are the
    store: every stored key is yielded with its stored value. *)
Theorem traversal_is_store m :
  collect (pairs (All m)) = zip (collect (Keys m)) (collect (Values m)) ∧
  (wf m → list_to_map (collect (pairs (AllFromFront m))) = kv m).
Proof.
  split.
  - unfold All. rewrite collect_AllFromFront, collect_Keys, collect_Values.
    induction (ll m) as [|key l IH]; [done|]. csimpl. by f_equal.
  - intros [Hnd Hbij]. rewrite collect_AllFromFront.
    apply map_eq. intros key.
    destruct (kv m !! key) as [value|] eqn:Hkey.
    + apply elem_of_list_to_map.
      * rewrite <- list_fmap_compose.
        by rewrite (list_fmap_ext _ id _ (λ _ _ _, eq_refl)), list_fmap_id.
      * apply list_elem_of_fmap. exists key. split.
        -- by rewrite (lookup_total_correct _ _ _ Hkey).
        -- apply Hbij. eauto.
    + apply not_elem_of_list_to_map.
      rewrite <- list_fmap_compose.
      rewrite (list_fmap_ext _ id _ (λ _ _ _, eq_refl)), list_fmap_id.
      rewrite Hbij, Hkey. by intros [? ?].
Qed.

(** The loop of NewOrderedMapWithElements on pointers that are not nil. *)
Lemma fold_elements (els : list (Element K V)) m0 :
  foldl (λ oom el,
           om ← oom;
           el ← el;
           Some (Set_ om (Key el) (Value el)).1)
        (Some m0) (Some <$> els)
  = Some (foldl (λ om el, (Set_ om (Key el) (Value el)).1) m0 els).
Proof.
  revert m0. induction els as [|el els IH]; intros m0; [done|]. simpl. apply IH.
Qed.

Lemma fold_elements_None (els : list (option (Element K V))) :
  foldl (λ oom el,
           om ← oom;
           el ← el;
           Some (Set_ om (Key el) (Value el)).1)
        None els = None.
Proof. induction els as [|el els IH]; [done|]. simpl. apply IH. Qed.

(** X12: NewOrderedMapWithElements on elements none of which is a nil
    pointer does not panic and returns a map in bijection; a key given
    several times stands where its first element stands and has the value
    of its last element; the map has one key per distinct key given.  With
    a nil pointer among the elements the call panics. *)
Theorem NewOrderedMapWithElements_spec :
  (∀ els : list (Element K V),
     ∃ m, NewOrderedMapWithElements (Some <$> els) = Some m ∧
       wf m ∧
       ll m = reverse (remove_dups (reverse (Key <$> els))) ∧
       kv m = list_to_map (reverse ((λ el, (Key el, Value el)) <$> els))) ∧
  (∀ els : list (option (Element K V)),
     None ∈ els → NewOrderedMapWithElements els = None).
Proof.
  split.
  - intros els. unfold NewOrderedMapWithElements, NewOrderedMapWithCapacity.
    rewrite bool_decide_eq_true_2 by lia. simpl. rewrite fold_elements.
    eexists. split; [done|].
    change {| kv := ∅; ll := [] |} with (MakeOrderedMap (K:=K) (V:=V)).
    induction els as [|el els (Hwf & Hll & Hkv)] using rev_ind.
    + split_and!; [apply wf_empty | done | done].
    + rewrite foldl_app. simpl.
      set (m := foldl (λ om el, (Set_ om (Key el) (Value el)).1) MakeOrderedMap els) in *.
      split_and!.
      * by apply Set_wf.
      * rewrite Set_ll, fmap_snoc, reverse_snoc. simpl.
        assert (Has m (Key el) = true ↔ Key el ∈ reverse (Key <$> els)) as Hin.
        { rewrite Has_true. destruct Hwf as [_ Hbij].
          rewrite <- Hbij, Hll, elem_of_reverse, elem_of_remove_dups. done. }
        destruct (decide_rel elem_of (Key el) (reverse (Key <$> els))) as [Hel|Hel].
        -- apply Hin in Hel. by rewrite Hel.
        -- destruct (Has m (Key el)); [by destruct Hel; apply Hin|].
           by rewrite Hll, reverse_cons.
      * by rewrite Set_kv, fmap_snoc, reverse_snoc, Hkv.
  - intros els (l1 & l2 & ->)%list_elem_of_split.
    unfold NewOrderedMapWithElements, NewOrderedMapWithCapacity.
    rewrite bool_decide_eq_true_2 by lia. simpl.
    rewrite foldl_app. simpl.
    destruct (foldl _ _ l1); simpl; apply fold_elements_None.
Qed.

(** X13: Copy builds what NewOrderedMapWithElements builds from the
    elements of a front traversal; on a map in bijection both give the
    map back. *)
Theorem rebuild_from_traversal m :
  NewOrderedMapWithElements
    ((λ p, Some (mkElement p.1 p.2)) <$> collect (pairs (AllFromFront m)))
  = Copy m ∧
  (wf m → Copy m = Some m).
Proof.
  split; [|apply Copy_wf].
  rewrite collect_AllFromFront.
  unfold NewOrderedMapWithElements, Copy, NewOrderedMapWithCapacity, Len.
  rewrite !bool_decide_eq_true_2 by lia. simpl.
  generalize ({| kv := ∅; ll := [] |} : OrderedMap K V) as m0.
  induction (ll m) as [|key l IH]; intros m0; [done|]. simpl. apply IH.
Qed.
End Traversal_more.

(** ** Copy on the heap *)

Section Heap_more.
Context {K : Type} `{Countable K} {V : Type} `{Inhabited V}.
Implicit Types (m : OrderedMap K V) (h : heap K V) (r : handle).

(** X14: Copy through any handle that refers to a map does not panic; the
    handle it returns shares no reference with any handle that referred to
    a map before the call, it refers to what [Copy] computes from the
    contents, and every map of the heap is left as it was. *)
Theorem CopyH_frame h r m :
  load h r = Some m →
  ∃ h' r2, CopyH r h = Some (h', r2) ∧
    load h' r2 = Copy m ∧
    ∀ r' m', load h r' = Some m' → separate r2 r' ∧ load h' r' = Some m'.
Proof.
  intros Hload.
  set (r2 := {| kv_ref := fresh (dom (maps h)); ll_ref := fresh (dom (cells h)) |}).
  assert (∀ r' m', load h r' = Some m' → separate r2 r') as Hsep.
  { intros r' m' [Hkv Hll]%load_allocated.
    split; simpl; intros Heq; [apply (is_fresh (dom (maps h)))
                               | apply (is_fresh (dom (cells h)))];
      by rewrite Heq. }
  set (h1 := save r2 {| kv := ∅; ll := [] |} h).
  destruct (CopyH_loop r r2 m (ll m) h1 {| kv := ∅; ll := [] |})
    as (h2 & Hloop & _ & Hr2 & Hframe); [by eapply Hsep | | apply load_save |].
  { unfold h1. rewrite load_save_separate; [done | by eapply Hsep]. }
  exists h2, r2. split_and!.
  - unfold CopyH, NewOrderedMapWithCapacityH. rewrite Hload. simpl.
    rewrite bool_decide_eq_true_2 by (unfold Len; lia). simpl.
    fold r2. fold h1. by rewrite Hloop.
  - rewrite Hr2. unfold Copy, NewOrderedMapWithCapacity.
    by rewrite bool_decide_eq_true_2 by (unfold Len; lia).
  - intros r' m' Hr'. split; [by eapply Hsep|].
    rewrite (Hframe r') by (by eapply Hsep).
    unfold h1. rewrite load_save_separate; [done | by eapply Hsep].
Qed.
End Heap_more.

(** ** Multimaps *)

Section MultiMap_more.
Context {K : Type} `{Countable K} {V : Type} `{Inhabited V}.
Variable spare : nat → nat.
Implicit Types (mem : gmap loc (list V)) (s : slice) (m : OrderedMap K slice).

(** [append] writes into the backing array of its slice or into a fresh
    array: a valid slice on another array keeps its elements. *)
Lemma append_other mem a x s :
  valid mem s → valid mem a → (cap s = 0%nat ∨ arr s ≠ arr a) →
  elems (append spare mem a x).1 s = elems mem s ∧
  valid (append spare mem a x).1 s.
Proof.
  intros [Hlen Hcap] _ Hne.
  destruct (decide (cap s = 0%nat)) as [Hzero|Hpos].
  { split; [|split; [done | by left]].
    unfold elems. replace (len s) with 0%nat by lia. by rewrite !take_0. }
  destruct Hcap as [Hcap | (b & Hb & Hbound)]; [done|].
  destruct Hne as [Hne|Hne]; [done|].
  assert ((append spare mem a x).1 !! arr s = Some b) as Hsame.
  { unfold append. case_bool_decide; simpl.
    - by rewrite lookup_insert_ne.
    - rewrite lookup_insert_ne; [done|].
      intros Heq. apply (is_fresh (dom mem)). rewrite Heq.
      apply elem_of_dom. eauto. }
  split.
  - unfold elems. by rewrite (lookup_total_correct _ _ _ Hsame),
      (lookup_total_correct _ _ _ Hb).
  - split; [done|]. right. eauto.
Qed.

Lemma literal1_other mem x s :
  valid mem s →
  elems (literal1 mem x).1 s = elems mem s ∧ valid (literal1 mem x).1 s.
Proof.
  intros [Hlen Hcap].
  destruct Hcap as [Hcap | (b & Hb & Hbound)].
  { split; [|split; [done | by left]].
    unfold elems. replace (len s) with 0%nat by lia. by rewrite !take_0. }
  assert ((literal1 mem x).1 !! arr s = Some b) as Hsame.
  { unfold literal1. simpl. rewrite lookup_insert_ne; [done|].
    intros Heq. apply (is_fresh (dom mem)). rewrite Heq.
    apply elem_of_dom. eauto. }
  split.
  - unfold elems. by rewrite (lookup_total_correct _ _ _ Hsame),
      (lookup_total_correct _ _ _ Hb).
  - split; [done|]. right. eauto.
Qed.

(** X15: AppendMultiMap touches one key.  The key keeps its place in the
    ordering slice when it was in the map and goes to the end when it was
    not; the slices stored under the other keys are the ones stored
    before; and a valid slice whose backing array is not the one of the
    key's slice holds the elements it held. *)
Theorem AppendMultiMap_frame mem m key value :
  (∀ a, kv m !! key = Some a → valid mem a) →
  let mem' := (AppendMultiMap spare mem m key value).1 in
  let m' := (AppendMultiMap spare mem m key value).2 in
  ll m' = (if Has m key then ll m else ll m ++ [key]) ∧
  (∀ key', key' ≠ key → kv m' !! key' = kv m !! key') ∧
  (∀ s, valid mem s →
        (∀ a, kv m !! key = Some a → cap s = 0%nat ∨ arr s ≠ arr a) →
        elems mem' s = elems mem s ∧ valid mem' s).
Proof.
  intros Hvalid mem' m'. subst mem' m'.
  destruct (kv m !! key) as [a|] eqn:Ha.
  - rewrite (AppendMultiMap_present spare mem m key value a Ha). cbn [fst snd].
    split_and!.
    + by rewrite Set_ll.
    + intros key' Hne. by rewrite Set_kv, lookup_insert_ne.
    + intros s Hs Hother. apply append_other; [done | by apply Hvalid | by apply Hother].
  - rewrite (AppendMultiMap_absent spare mem m key value Ha). cbn [fst snd].
    split_and!.
    + by rewrite Set_ll.
    + intros key' Hne. by rewrite Set_kv, lookup_insert_ne.
    + intros s Hs _. by apply literal1_other.
Qed.


Lemma append_shape mem a x :
  len (append spare mem a x).2 = S (len a) ∧
  (arr (append spare mem a x).2 = arr a ∨
   arr (append spare mem a x).2 = fresh (dom mem)).
Proof. unfold append. case_bool_decide; simpl; auto. Qed.

Lemma append_lookup_other mem a x p :
  p ≠ arr a → p ∈ dom mem → (append spare mem a x).1 !! p = mem !! p.
Proof.
  intros Hne Hin. unfold append. case_bool_decide; simpl.
  - by rewrite lookup_insert_ne.
  - rewrite lookup_insert_ne; [done|].
    intros <-. by apply (is_fresh (dom mem)).
Qed.

Lemma literal1_lookup_other mem x p :
  p ∈ dom mem → (literal1 mem x).1 !! p = mem !! p.
Proof.
  intros Hin. unfold literal1. simpl. rewrite lookup_insert_ne; [done|].
  intros <-. by apply (is_fresh (dom mem)).
Qed.

Lemma values_snoc (ps : list (K * V)) key k v :
  (filter (λ p, p.1 = key) (ps ++ [(k, v)])).*2
  = (filter (λ p, p.1 = key) ps).*2 ++ (if decide (k = key) then [v] else []).
Proof.
  rewrite filter_app, fmap_app. f_equal.
  destruct (decide (k = key)) as [Heq|Hne].
  - by rewrite filter_cons_True.
  - by rewrite filter_cons_False.
Qed.

(** What a multimap built by AppendMultiMap alone keeps: the map is in
    bijection, its keys stand in the order of their first values, every
    stored slice lies in an allocated backing array and holds the values
    appended under its key, and different keys have different backing
    arrays. *)
Lemma AppendMultiMap_fold_inv (ps : list (K * V)) :
  let r := foldl (λ r p, AppendMultiMap spare r.1 r.2 p.1 p.2)
                 (∅, MakeOrderedMap) ps in
  wf r.2 ∧
  ll r.2 = reverse (remove_dups (reverse ps.*1)) ∧
  (∀ key s, kv r.2 !! key = Some s →
     elems r.1 s = (filter (λ p, p.1 = key) ps).*2 ∧
     (len s ≤ cap s)%nat ∧
     ∃ a, r.1 !! arr s = Some a ∧ (off s + cap s ≤ length a)%nat) ∧
  (∀ key1 key2 s1 s2, key1 ≠ key2 →
     kv r.2 !! key1 = Some s1 → kv r.2 !! key2 = Some s2 → arr s1 ≠ arr s2).
Proof.
  induction ps as [|[k v] ps IH] using rev_ind.
  - simpl. split_and!; [apply wf_empty | done | |];
      intros *; by rewrite ?lookup_empty.
  - rewrite foldl_app. cbn [foldl fst snd].
    set (r := foldl (λ r p, AppendMultiMap spare r.1 r.2 p.1 p.2)
                    (∅, MakeOrderedMap) ps) in *.
    cbv zeta in IH. destruct IH as (Hwf & Hll & Hslices & Hdistinct).
    assert (Has r.2 k = true ↔ k ∈ reverse ps.*1) as Hin.
    { rewrite Has_true. destruct Hwf as [_ Hbij].
      by rewrite <- Hbij, Hll, elem_of_reverse, elem_of_remove_dups. }
    assert ((if Has r.2 k then ll r.2 else ll r.2 ++ [k])
            = reverse (remove_dups (reverse (ps ++ [(k, v)]).*1))) as Hll'.
    { rewrite fmap_snoc, reverse_snoc. simpl.
      destruct (decide_rel elem_of k (reverse ps.*1)) as [Hel|Hel].
      - apply Hin in Hel. by rewrite Hel.
      - destruct (Has r.2 k); [by destruct Hel; apply Hin|].
        by rewrite Hll, reverse_cons. }
    assert (∀ key s, kv r.2 !! key = Some s → arr s ∈ dom r.1) as Halloc.
    { intros key s Hs. destruct (Hslices key s Hs) as (_ & _ & a & Ha & _).
      apply elem_of_dom. eauto. }
    destruct (kv r.2 !! k) as [a|] eqn:Ha.
    + rewrite (AppendMultiMap_present spare r.1 r.2 k v a Ha). cbn [fst snd].
      destruct (Hslices k a Ha) as (Helems & Hlen & b & Hb & Hbound).
      assert (valid r.1 a) as Hvalid by (split; [done | right; eauto]).
      destruct (append_elems spare r.1 a v Hvalid) as [Happ [Hlen' Hcap']].
      destruct (append_shape r.1 a v) as [Hlen1 Harr].
      set (mem' := (append spare r.1 a v).1) in *.
      set (a' := (append spare r.1 a v).2) in *.
      split_and!.
      * by apply Set_wf.
      * by rewrite Set_ll.
      * intros key s. rewrite Set_kv, values_snoc.
        destruct (decide (k = key)) as [<-|Hne].
        -- rewrite lookup_insert_eq. intros [= <-].
           split_and!; [by rewrite Happ, Helems | done |].
           destruct Hcap' as [Hzero | Hex]; [lia | done].
        -- rewrite lookup_insert_ne by done. intros Hs.
           destruct (Hslices key s Hs) as (Hes & Hls & c & Hc & Hcb).
           assert (mem' !! arr s = Some c) as Hc'.
           { unfold mem'. rewrite append_lookup_other; [done | | by eapply Halloc].
             by apply (Hdistinct key k s a). }
           rewrite app_nil_r. split_and!; [|done|eauto].
           unfold elems. by rewrite (lookup_total_correct _ _ _ Hc'),
             <- (lookup_total_correct _ _ _ Hc).
      * intros key1 key2 s1 s2 Hne. rewrite !Set_kv.
        assert (∀ key s, key ≠ k → kv r.2 !! key = Some s → arr a' ≠ arr s) as Hnew.
        { intros key s Hk Hs. destruct Harr as [-> | ->].
          - by apply (Hdistinct k key a s).
          - intros Heq. apply (is_fresh (dom r.1)). rewrite Heq. by eapply Halloc. }
        destruct (decide (k = key1)) as [<-|Hne1];
          [rewrite lookup_insert_eq, lookup_insert_ne by done
          |rewrite (lookup_insert_ne _ k key1) by done;
           destruct (decide (k = key2)) as [<-|Hne2];
           [rewrite lookup_insert_eq | rewrite lookup_insert_ne by done]].
        -- intros [= <-] Hs2. by apply (Hnew key2).
        -- intros Hs1 [= <-] Heq. by apply (Hnew key1 s1).
        -- by apply Hdistinct.
    + rewrite (AppendMultiMap_absent spare r.1 r.2 k v Ha). cbn [fst snd].
      assert (Has r.2 k = false) as Hk by (by apply Has_false).
      assert ((filter (λ p, p.1 = k) ps).*2 = []) as Hnone.
      { rewrite Hk in Hin.
        assert (Forall (λ p, ¬ p.1 = k) ps) as Hall.
        { apply Forall_forall. intros p Hp Heq.
          assert (k ∈ reverse ps.*1) as Hp1
            by (rewrite elem_of_reverse, <- Heq; by apply list_elem_of_fmap_2).
          by apply Hin in Hp1. }
        clear -Hall. induction Hall as [|p ps Hp _ IH]; [done|].
        by rewrite filter_cons_False. }
      destruct (literal1_elems r.1 v) as [Hlit [Hlen' Hcap']].
      set (mem' := (literal1 r.1 v).1) in *.
      set (a' := (literal1 r.1 v).2) in *.
      split_and!.
      * by apply Set_wf.
      * by rewrite Set_ll.
      * intros key s. rewrite Set_kv, values_snoc.
        destruct (decide (k = key)) as [<-|Hne].
        -- rewrite lookup_insert_eq. intros [= <-].
           split_and!; [by rewrite Hlit, Hnone | done |].
           destruct Hcap' as [Hzero | Hex]; [done | done].
        -- rewrite lookup_insert_ne by done. intros Hs.
           destruct (Hslices key s Hs) as (Hes & Hls & c & Hc & Hcb).
           assert (mem' !! arr s = Some c) as Hc'.
           { unfold mem'. rewrite literal1_lookup_other; [done | by eapply Halloc]. }
           rewrite app_nil_r. split_and!; [|done|eauto].
           unfold elems. by rewrite (lookup_total_correct _ _ _ Hc'),
             <- (lookup_total_correct _ _ _ Hc).
      * intros key1 key2 s1 s2 Hne. rewrite !Set_kv.
        assert (∀ key s, kv r.2 !! key = Some s → arr a' ≠ arr s) as Hnew.
        { intros key s Hs Heq. apply (is_fresh (dom r.1)).
          change (fresh (dom r.1)) with (arr a'). rewrite Heq. by eapply Halloc. }
        destruct (decide (k = key1)) as [<-|Hne1];
          [rewrite lookup_insert_eq, lookup_insert_ne by done
          |rewrite (lookup_insert_ne _ k key1) by done;
           destruct (decide (k = key2)) as [<-|Hne2];
           [rewrite lookup_insert_eq | rewrite lookup_insert_ne by done]].
        -- intros [= <-] Hs2. by apply (Hnew key2).
        -- intros Hs1 [= <-] Heq. by apply (Hnew key1 s1).
        -- by apply Hdistinct.
Qed.

(** X16: a multimap built from the empty one by AppendMultiMap alone
    groups the values by key.  After the calls for a list of key/value
    pairs, the slice under each key holds the values given for that key,
    in the order of the calls (none for a key that was never given); the
    keys of the map are the keys given, in the order of their first
    values. *)
Theorem AppendMultiMap_groups (ps : list (K * V)) :
  let r := foldl (λ r p, AppendMultiMap spare r.1 r.2 p.1 p.2)
                 (∅, MakeOrderedMap) ps in
  (∀ key, elems r.1 (Get r.2 key).1 = (filter (λ p, p.1 = key) ps).*2) ∧
  (∀ key, Has r.2 key = true ↔ key ∈ ps.*1) ∧
  collect (Keys r.2) = reverse (remove_dups (reverse ps.*1)).
Proof.
  intros r. destruct (AppendMultiMap_fold_inv ps) as (Hwf & Hll & Hslices & _).
  fold r in Hwf, Hll, Hslices.
  assert (∀ key, Has r.2 key = true ↔ key ∈ ps.*1) as Hhas.
  { intros key. rewrite Has_true. destruct Hwf as [_ Hbij].
    by rewrite <- Hbij, Hll, elem_of_reverse, elem_of_remove_dups, elem_of_reverse. }
  split_and!; [|done|by rewrite collect_Keys].
  intros key. unfold Get. cbn [fst].
  destruct (kv r.2 !! key) as [s|] eqn:Hs.
  - rewrite (lookup_total_correct _ _ _ Hs). by apply Hslices.
  - rewrite lookup_total_alt, Hs. simpl.
    apply Has_false in Hs.
    assert (key ∉ ps.*1) as Hnotin by (rewrite <- Hhas, Hs; done).
    symmetry. clear -Hnotin.
    induction ps as [|p ps IH]; [done|].
    rewrite fmap_cons, not_elem_of_cons in Hnotin. destruct Hnotin as [Hp Hps].
    rewrite filter_cons_False by (by intros <-). by apply IH.
Qed.

(** X17: values are slices, and two maps that store one slice value under
    a key (as a map and its Copy do) share its backing array.  When that
    slice has spare capacity, AppendMultiMap through the first map and
    then through the second writes both values into the same cell of the
    array: afterwards the first map, too, ends with the second value.
    When the slice is full each call reallocates, and the first map keeps
    its own value. *)
Theorem AppendMultiMap_shared_array mem (m1 m2 : OrderedMap K slice) key a x y :
  kv m1 !! key = Some a → kv m2 !! key = Some a → valid mem a →
  let r1 := AppendMultiMap spare mem m1 key x in
  let r2 := AppendMultiMap spare r1.1 m2 key y in
  elems r2.1 (Get r2.2 key).1 = elems mem a ++ [y] ∧
  ((len a < cap a)%nat → elems r2.1 (Get r1.2 key).1 = elems mem a ++ [y]) ∧
  (len a = cap a → elems r2.1 (Get r1.2 key).1 = elems mem a ++ [x]).
Proof.
  intros Ha1 Ha2 Hvalid r1 r2. subst r1 r2.
  rewrite (AppendMultiMap_present spare mem m1 key x a Ha1). cbn [fst snd].
  rewrite (AppendMultiMap_present spare _ m2 key y a Ha2). cbn [fst snd].
  rewrite !Get_Set. cbn [fst].
  destruct (append_elems spare mem a x Hvalid) as [Hx Hvalid1].
  destruct Hvalid as [Hlen Hcap].
  destruct (decide (len a < cap a)%nat) as [Hroom|Hfull].
  - (* both calls write in place, at the same index *)
    destruct Hcap as [Hcap | (b & Hb & Hbound)]; [lia|].
    assert (append spare mem a x
            = (<[arr a := <[(off a + len a)%nat := x]> b]> mem,
               {| arr := arr a; off := off a; len := S (len a); cap := cap a |}))
      as Hfirst.
    { unfold append. rewrite bool_decide_eq_true_2 by done.
      by rewrite (lookup_total_correct _ _ _ Hb). }
    rewrite Hfirst in *. cbn [fst snd] in *.
    assert (append spare (<[arr a := <[(off a + len a)%nat := x]> b]> mem) a y
            = (<[arr a := <[(off a + len a)%nat := y]> b]> mem,
               {| arr := arr a; off := off a; len := S (len a); cap := cap a |}))
      as Hsecond.
    { unfold append. rewrite bool_decide_eq_true_2 by done.
      by rewrite lookup_total_insert_eq, list_insert_insert_eq, insert_insert_eq. }
    rewrite Hsecond. cbn [fst snd].
    assert (valid mem a) as Hvalid by (split; [done | right; eauto]).
    destruct (append_elems spare mem a y Hvalid) as [Hy _].
    unfold append in Hy. rewrite bool_decide_eq_true_2 in Hy by done.
    rewrite (lookup_total_correct _ _ _ Hb) in Hy. cbn [fst snd] in Hy.
    split_and!; [done | done | lia].
  - (* both calls reallocate, each into an array of its own *)
    assert (len a = cap a) as Heq by lia.
    set (mem1 := (append spare mem a x).1) in *.
    set (a1 := (append spare mem a x).2) in *.
    assert (elems mem1 a = elems mem a ∧ valid mem1 a) as [Hsame Hvalida].
    { destruct (decide (cap a = 0%nat)) as [Hzero|Hpos].
      - split; [|split; [done | by left]].
        unfold elems. replace (len a) with 0%nat by lia. by rewrite !take_0.
      - destruct Hcap as [Hcap | (b & Hb & Hbound)]; [done|].
        assert (mem1 !! arr a = Some b) as Hb1.
        { unfold mem1, append. rewrite bool_decide_eq_false_2 by done. simpl.
          rewrite lookup_insert_ne; [done|].
          intros Hp. apply (is_fresh (dom mem)). rewrite Hp.
          apply elem_of_dom. eauto. }
        split; [|split; [done | right; eauto]].
        unfold elems. by rewrite (lookup_total_correct _ _ _ Hb1),
          (lookup_total_correct _ _ _ Hb). }
    destruct (append_elems spare mem1 a y Hvalida) as [Hy _].
    rewrite Hsame in Hy.
    split_and!; [done | lia |]. intros _.
    rewrite <- Hx.
    assert (arr a1 = fresh (dom mem)
            ∧ mem1 !! fresh (dom mem) = Some (elems mem a ++ x :: replicate (spare (cap a)) inhabitant))
      as [Harr Hnew].
    { unfold a1, mem1, append. rewrite bool_decide_eq_false_2 by done. simpl.
      by rewrite lookup_insert_eq. }
    assert ((append spare mem1 a y).1 !! arr a1 = mem1 !! arr a1) as Hkeep.
    { unfold append. rewrite bool_decide_eq_false_2 by done. simpl.
      rewrite lookup_insert_ne; [done|].
      intros Hp. apply (is_fresh (dom mem1)). rewrite Hp, Harr.
      apply elem_of_dom. eauto. }
    unfold elems. by rewrite !lookup_total_alt, Hkeep.
Qed.
End MultiMap_more.

(** ** The further properties on concrete maps *)

Lemma Set_other_keys_witness :
  "b" ≠ "a" ∧
  Get (Set_ abc "a" 9).1 "b" = (2, true) ∧
  Has (Set_ abc "a" 9).1 "b" = true ∧
  GetOrDefault (Set_ abc "a" 9).1 "b" 42 = 2.
Proof.
  assert ("b" ≠ "a") as Hne by discriminate.
  destruct (Set_other_keys abc "a" 9 "b" Hne) as (Hget & Hhas & Hdef).
  rewrite Hget, Hhas, (Hdef 42). split_and!; [exact Hne | reflexivity..].
Defined.

Lemma Set_Delete_roundtrip_witness :
  wf abc ∧ Has abc "d" = false ∧
  Delete (Set_ abc "d" 4).1 "d" = Some (abc, true).
Proof.
  split_and!; [exact wf_abc | reflexivity |].
  exact (Set_Delete_roundtrip abc "d" 4 wf_abc eq_refl).
Defined.

Lemma Delete_Set_moves_back_witness :
  wf abc ∧ Has abc "a" = true ∧
  ∃ m1 m2, Delete abc "a" = Some (m1, true) ∧ Set_ m1 "a" 7 = (m2, true) ∧
    collect (Keys m2) = ["b"; "c"; "a"] ∧ Get m2 "a" = (7, true).
Proof.
  split_and!; [exact wf_abc | reflexivity |].
  destruct (Delete_Set_moves_back abc "a" 7 wf_abc eq_refl) as (m1 & Hd & Hs).
  exists m1. eexists. split_and!; [exact Hd | exact Hs | |];
    vm_compute; reflexivity.
Defined.

Lemma ReplaceKey_roundtrip_witness :
  wf abc ∧ Has abc "b" = true ∧ Has abc "x" = false ∧
  ∃ m1, ReplaceKey abc "b" "x" = Some (m1, true) ∧
        ReplaceKey m1 "x" "b" = Some (abc, true).
Proof.
  split_and!; [exact wf_abc | reflexivity | reflexivity |].
  exact (ReplaceKey_roundtrip abc "b" "x" wf_abc eq_refl eq_refl).
Defined.

Lemma Len_changes_witness :
  Len abc = 3 ∧ Len (Set_ abc "d" 4).1 = 4 ∧ Len (Set_ abc "a" 4).1 = 3 ∧
  ∃ m1 m2, Delete abc "a" = Some (m1, true) ∧ Len m1 = 2 ∧
           ReplaceKey abc "a" "x" = Some (m2, true) ∧ Len m2 = 3.
Proof.
  destruct (Len_changes abc "d" 4) as (_ & Hnew & _ & _).
  destruct (Len_changes abc "a" 4) as (_ & Hold & Hdel & Hrep).
  assert (Delete abc "a"
          = Some ({| kv := delete "a" (kv abc); ll := ["b"; "c"] |}, true)) as Hd
    by (vm_compute; reflexivity).
  assert (ReplaceKey abc "a" "x"
          = Some ({| kv := <["x" := 1]> (delete "a" (kv abc));
                     ll := ["x"; "b"; "c"] |}, true)) as Hr
    by (vm_compute; reflexivity).
  destruct (Hdel _ _ Hd) as [_ Hlen1].
  pose proof (Hrep _ _ _ Hr) as Hlen2.
  split_and!; [reflexivity | rewrite Hnew; reflexivity | rewrite Hold; reflexivity |].
  eexists _, _. split_and!; [exact Hd | rewrite Hlen1; reflexivity
                            | exact Hr | rewrite Hlen2; reflexivity].
Defined.

Lemma lookup_after_Delete_witness :
  ∃ m', Delete abc "b" = Some (m', true) ∧
    Get m' "b" = (0, false) ∧ Has m' "b" = false ∧
    GetOrDefault m' "b" 42 = 42 ∧
    "a" ≠ "b" ∧ Get m' "a" = (1, true) ∧ GetOrDefault m' "a" 42 = 1.
Proof.
  assert (Delete abc "b"
          = Some ({| kv := delete "b" (kv abc); ll := ["a"; "c"] |}, true)) as Hd
    by (vm_compute; reflexivity).
  assert ("a" ≠ "b") as Hne by discriminate.
  destruct (lookup_after_Delete abc "b" _ _ Hd) as (Hget & Hhas & Hdef & Hother).
  destruct (Hother "a" Hne) as [Hget' Hdef'].
  eexists. split_and!; [exact Hd | exact Hget | exact Hhas | exact (Hdef 42)
                       | exact Hne | rewrite Hget'; reflexivity
                       | rewrite (Hdef' 42); reflexivity].
Defined.

Lemma step_keeps_order_witness :
  wf abc ∧
  ∃ m', step (OpReplaceKey "b" "x") abc = Some m' ∧
    ll m' = ["a"; "x"; "c"] ∧
    filter (λ k, k ∈ ll abc) (ll m') = ["a"; "c"] ∧
    filter (λ k, k ∈ ll m') (ll abc) = ["a"; "c"].
Proof.
  split; [exact wf_abc|].
  assert (step (OpReplaceKey "b" "x") abc
          = Some {| kv := <["x" := 2]> (delete "b" (kv abc));
                    ll := ["a"; "x"; "c"] |}) as Hstep
    by (vm_compute; reflexivity).
  pose proof (step_keeps_order abc _ _ wf_abc Hstep) as Hsame.
  eexists. split_and!; [exact Hstep | reflexivity | | rewrite <- Hsame];
    vm_compute; reflexivity.
Defined.

Lemma panic_free_iff_covered_witness :
  Has uncovered "a" = true ∧ ("a" ∉ ll uncovered) ∧
  slices.Index (ll uncovered) "a" = -1 ∧
  Delete uncovered "a" = None ∧
  (Has uncovered "b" = false → ReplaceKey uncovered "a" "b" = None) ∧
  ¬ covered uncovered ∧
  (covered abc → ∀ key, is_Some (Delete abc key)).
Proof.
  assert ("a" ∉ ll uncovered) as Hnotin by apply not_elem_of_nil.
  destruct (panic_free_iff_covered uncovered) as [Hiff Hpanic].
  destruct (Hpanic "a" eq_refl Hnotin) as (Hindex & Hd & Hr).
  split_and!; [reflexivity | exact Hnotin | exact Hindex | exact Hd
              | exact (Hr "b") | | exact (proj1 (proj1 (panic_free_iff_covered abc)))].
  intros Hcov. destruct (proj1 Hiff Hcov "a") as [x Hx].
  rewrite Hd in Hx. discriminate Hx.
Defined.

Lemma iterators_run_through_witness :
  never_stops all_keys [] (collect (pairs (AllFromFront abc))) ∧
  never_stops all_keys [] (collect (pairs (AllFromBack abc))) ∧
  pairs (AllFromFront abc) _ (counted all_keys) ([], 0%nat) = (["a"; "b"; "c"], 3%nat) ∧
  pairs (AllFromBack abc) _ (counted all_keys) ([], 0%nat) = (["c"; "b"; "a"], 3%nat).
Proof.
  assert (∀ xs, never_stops all_keys [] xs) as Hgo by (intros xs j x _; reflexivity).
  destruct (iterators_run_through abc) as (Hf & Hb & _).
  split_and!; [apply Hgo | apply Hgo | |].
  - rewrite (Hf _ all_keys [] (Hgo _)). reflexivity.
  - rewrite (Hb _ all_keys [] (Hgo _)). reflexivity.
Defined.

Lemma traversal_is_store_witness :
  wf abc ∧
  collect (pairs (All abc)) = zip ["a"; "b"; "c"] [1; 2; 3] ∧
  list_to_map (collect (pairs (AllFromFront abc))) = kv abc.
Proof.
  destruct (traversal_is_store abc) as [Hzip Hstore].
  split_and!; [exact wf_abc | rewrite Hzip; reflexivity | exact (Hstore wf_abc)].
Defined.

Lemma NewOrderedMapWithElements_spec_witness :
  (∃ m, NewOrderedMapWithElements
          [Some (mkElement "a" 1); Some (mkElement "b" 2); Some (mkElement "a" 3)]
        = Some m ∧
     ll m = ["a"; "b"] ∧ Get m "a" = (3, true) ∧ Get m "b" = (2, true)) ∧
  None ∈ [Some (mkElement "a" 1); None] ∧
  NewOrderedMapWithElements [Some (mkElement "a" 1); None] = None.
Proof.
  destruct (NewOrderedMapWithElements_spec (K:=string) (V:=Z)) as [Hok Hnil].
  destruct (Hok [mkElement "a" 1; mkElement "b" 2; mkElement "a" 3])
    as (m & Hm & _ & Hll & Hkv).
  assert (None ∈ [Some (mkElement "a" 1); None]) as Hin
    by (apply elem_of_cons; right; apply elem_of_cons; by left).
  split_and!; [|exact Hin|exact (Hnil _ Hin)].
  exists m. unfold Get. rewrite Hll, Hkv.
  split_and!; [exact Hm | vm_compute; reflexivity..].
Defined.

Lemma rebuild_from_traversal_witness :
  wf abc ∧
  NewOrderedMapWithElements
    [Some (mkElement "a" 1); Some (mkElement "b" 2); Some (mkElement "c" 3)]
  = Some abc.
Proof.
  destruct (rebuild_from_traversal abc) as [Hnew Hcopy].
  split; [exact wf_abc|].
  rewrite <- (Hcopy wf_abc), <- Hnew. reflexivity.
Defined.

Lemma CopyH_frame_witness :
  load h0 r0 = Some abc ∧
  ∃ h' r2, CopyH r0 h0 = Some (h', r2) ∧ load h' r2 = Some abc ∧
    separate r2 r0 ∧ load h' r0 = Some abc.
Proof.
  assert (load h0 r0 = Some abc) as Hload by reflexivity.
  split; [exact Hload|].
  destruct (CopyH_frame h0 r0 abc Hload) as (h' & r2 & Hcopy & Hl2 & Hframe).
  destruct (Hframe r0 abc Hload) as [Hsep Hl].
  exists h', r2.
  split_and!; [exact Hcopy | rewrite Hl2; vm_compute; reflexivity | exact Hsep | exact Hl].
Defined.

Lemma mm123_valid : ∀ a, kv mm123.2 !! "a" = Some a → valid mm123.1 a.
Proof.
  intros a Ha. vm_compute in Ha. injection Ha as <-.
  split; [simpl; lia|]. right. eexists. split; [reflexivity|]. vm_compute. lia.
Qed.

Lemma AppendMultiMap_frame_witness :
  (∀ a, kv mm123.2 !! "b" = Some a → valid mm123.1 a) ∧
  valid mm123.1 (Get mm123.2 "a").1 ∧
  let r := AppendMultiMap doubling mm123.1 mm123.2 "b" 5 in
  ll r.2 = ["a"; "b"] ∧
  kv r.2 !! "a" = kv mm123.2 !! "a" ∧
  elems r.1 (Get mm123.2 "a").1 = [1; 2; 3].
Proof.
  assert (∀ a, kv mm123.2 !! "b" = Some a → valid mm123.1 a) as Hb
    by (intros a Ha; vm_compute in Ha; discriminate Ha).
  assert (valid mm123.1 (Get mm123.2 "a").1) as Ha
    by (apply mm123_valid; reflexivity).
  destruct (AppendMultiMap_frame doubling mm123.1 mm123.2 "b" 5 Hb)
    as (Hll & Hother & Hmem).
  destruct (Hmem (Get mm123.2 "a").1 Ha) as [Helems _].
  { intros a Hsome. vm_compute in Hsome. discriminate Hsome. }
  assert ("a" ≠ "b") as Hne by discriminate.
  split_and!; [exact Hb | exact Ha |]. cbv zeta. split_and!.
  - rewrite Hll. reflexivity.
  - exact (Hother "a" Hne).
  - rewrite Helems. vm_compute. reflexivity.
Defined.

Lemma AppendMultiMap_groups_witness :
  let r := foldl (λ r p, AppendMultiMap doubling r.1 r.2 p.1 p.2)
                 (∅, MakeOrderedMap)
                 [("a", 1); ("b", 5); ("a", 2); ("b", 6); ("a", 3)] in
  elems r.1 (Get r.2 "a").1 = [1; 2; 3] ∧
  elems r.1 (Get r.2 "b").1 = [5; 6] ∧
  elems r.1 (Get r.2 "z").1 = [] ∧
  collect (Keys r.2) = ["a"; "b"].
Proof.
  intros r.
  destruct (AppendMultiMap_groups (K:=string) (V:=Z) doubling
              [("a", 1); ("b", 5); ("a", 2); ("b", 6); ("a", 3)])
    as (Hvalues & _ & Hkeys).
  fold r in Hvalues, Hkeys.
  rewrite !Hvalues, Hkeys. split_and!; vm_compute; reflexivity.
Defined.

Lemma AppendMultiMap_shared_array_witness :
  let a := (Get mm123.2 "a").1 in
  kv mm123.2 !! "a" = Some a ∧ valid mm123.1 a ∧ (len a < cap a)%nat ∧
  let r1 := AppendMultiMap doubling mm123.1 mm123.2 "a" 4 in
  let r2 := AppendMultiMap doubling r1.1 mm123.2 "a" 9 in
  elems r1.1 (Get r1.2 "a").1 = [1; 2; 3; 4] ∧
  elems r2.1 (Get r2.2 "a").1 = [1; 2; 3; 9] ∧
  elems r2.1 (Get r1.2 "a").1 = [1; 2; 3; 9].
Proof.
  intros a.
  assert (kv mm123.2 !! "a" = Some a) as Ha by reflexivity.
  assert (valid mm123.1 a) as Hvalid by (apply mm123_valid; exact Ha).
  assert (len a < cap a)%nat as Hroom by (vm_compute; lia).
  destruct (AppendMultiMap_shared_array doubling mm123.1 mm123.2 mm123.2 "a" a 4 9
              Ha Ha Hvalid) as (Hsecond & Hshared & _).
  split_and!; [exact Ha | exact Hvalid | exact Hroom |].
  intros r1 r2. split_and!.
  - vm_compute. reflexivity.
  - subst r1 r2. rewrite Hsecond. vm_compute. reflexivity.
  - subst r1 r2. rewrite (Hshared Hroom). vm_compute. reflexivity.
Defined.
